(** * VTIL-Common: the native register-context emulator and the 128-bit hash

    A shallow embedding of [src/amd64/emulator.cpp] (the register file
    accessors [resolve], [set], [get] and the inline-assembly [invoke]) and of
    [hash_t::operator<<] from [src/util/hashable.hpp].

    Conventions.
    - A 64-bit machine integer is a [Z]; wrap-around is written [wrap64].
    - Memory is byte addressed: a total function from 64-bit addresses to
      bytes.  Multi-byte accesses are little-endian, as on amd64.
    - The emulator object lives in that memory at the address [this]. *)

From Stdlib Require Import ZArith List Lia Bool.
From coqutil Require Import Byte Word.LittleEndianList.
Import ListNotations.
Local Open Scope Z_scope.

(** ** Machine integers *)

Definition wrap64 (x : Z) : Z := x mod 2 ^ 64.

(** Conversion to [int32_t]: two's complement on 32 bits. *)
Definition to_int32 (x : Z) : Z := (x + 2 ^ 31) mod 2 ^ 32 - 2 ^ 31.

(** * util/hashable.hpp: [hash_t] *)

Module hashable.

(** [value_t = std::array<size_t, 2>]; [value[0]] is the high word. *)
Record hash_t := mk_hash { value0 : Z; value1 : Z }.

Definition default_seed : hash_t := mk_hash 0x6C62272E07BB0142 0x62B821756295C58D.
Definition prime : hash_t := mk_hash 0x0000000001000000 0x000000000000013B.

(** [hash_t( size_t seed64 ) : value( { ~0ull, seed64 } )] *)
Definition of_seed64 (seed64 : Z) : hash_t := mk_hash (2 ^ 64 - 1) seed64.

(** [_umul128( a, b, &hi )]: the 64x64 -> 128 bit product; the low word is
    returned, the high word stored through the pointer. *)
Definition umul128 (a b : Z) : Z * Z :=
  (wrap64 (a * b), wrap64 ((a * b) / 2 ^ 64)).

(** One iteration of the loop body of [operator<<]. *)
Definition step (h : hash_t) (byte : Z) : hash_t :=
  (* value[ 1 ] ^= byte; *)
  let v1 := Z.lxor (value1 h) byte in
  let ha := value0 h in
  let la := v1 in
  let hb := value0 prime in
  let lb := value1 prime in
  (* value[ 1 ] = _umul128( la, lb, &value[ 0 ] ); *)
  let '(lo, hi) := umul128 la lb in
  (* value[ 0 ] += ha * lb; *)
  let v0 := wrap64 (hi + wrap64 (ha * lb)) in
  (* value[ 0 ] += la * hb; *)
  let v0 := wrap64 (v0 + wrap64 (la * hb)) in
  mk_hash v0 lo.

(** [operator<<] on the object representation of the item. *)
Definition append (h : hash_t) (bytes : list Z) : hash_t :=
  fold_left step bytes h.

Definition as64 (h : hash_t) : Z := wrap64 (value0 h + value1 h).

(** The state read as one 128-bit integer. *)
Definition as_u128 (h : hash_t) : Z := value0 h * 2 ^ 64 + value1 h.

(** [operator<], [operator==], [operator!=]: those of [std::array], that is
    lexicographic order and element-wise equality, [value[0]] first. *)
Definition lt (h o : hash_t) : bool :=
  (value0 h <? value0 o)
  || ((value0 h =? value0 o) && (value1 h <? value1 o)).
Definition eqb (h o : hash_t) : bool :=
  (value0 h =? value0 o) && (value1 h =? value1 o).
Definition neb (h o : hash_t) : bool := negb (eqb h o).

(** Both words are 64-bit values. *)
Definition in_range (h : hash_t) : Prop :=
  0 <= value0 h < 2 ^ 64 /\ 0 <= value1 h < 2 ^ 64.

(** The 128-bit reading of the algorithm, for comparison: xor the byte into
    the state, multiply by the prime, keep 128 bits. *)
Definition xor_mul_128 (x : Z) (byte : Z) : Z :=
  (Z.lxor x byte * as_u128 prime) mod 2 ^ 128.

(** The inverse of the prime modulo [2^128]. *)
Definition prime_inverse : Z := 235294668448601749631651150104872562675.

End hashable.

(** * Byte-addressed memory *)

Definition memory := Z -> byte.

Definition upd (m : memory) (a : Z) (b : byte) : memory :=
  fun x => if x =? a then b else m x.

(** Copy of [bs] to the addresses [a], [a+1], ... (the destination side of a
    [memcpy]). *)
Fixpoint store_bytes (m : memory) (a : Z) (bs : list byte) : memory :=
  match bs with
  | [] => m
  | b :: bs' => store_bytes (upd m (wrap64 a) b) (a + 1) bs'
  end.

(** The [n] bytes at [a], [a+1], ... (the source side of a [memcpy]). *)
Fixpoint load_bytes (m : memory) (a : Z) (n : nat) : list byte :=
  match n with
  | O => []
  | S k => m (wrap64 a) :: load_bytes m (a + 1) k
  end.

(** 64-bit little-endian accesses. *)
Definition load64 (m : memory) (a : Z) : Z := le_combine (load_bytes m a 8).
Definition store64 (m : memory) (a : Z) (v : Z) : memory :=
  store_bytes m a (le_split 8 v).

(** [x] is one of the [n] byte addresses starting at [a]. *)
Definition in_footprint (a : Z) (n : nat) (x : Z) : Prop :=
  exists i, 0 <= i < Z.of_nat n /\ x = wrap64 (a + i).

(** * amd64/emulator.cpp *)

Module emulator.

(** ** Registers *)

(** capstone's [x86_reg]: the general-purpose family with its aliases, the
    flags, the instruction and stack pointers, and a few registers outside
    the general-purpose file. *)
Inductive x86_reg : Set :=
| X86_REG_INVALID
| X86_REG_AH | X86_REG_AL | X86_REG_AX | X86_REG_BH | X86_REG_BL
| X86_REG_BP | X86_REG_BPL | X86_REG_BX | X86_REG_CH | X86_REG_CL
| X86_REG_CS | X86_REG_CX | X86_REG_DH | X86_REG_DI | X86_REG_DIL
| X86_REG_DL | X86_REG_DS | X86_REG_DX | X86_REG_EAX | X86_REG_EBP
| X86_REG_EBX | X86_REG_ECX | X86_REG_EDI | X86_REG_EDX | X86_REG_EFLAGS
| X86_REG_EIP | X86_REG_ES | X86_REG_ESI | X86_REG_ESP | X86_REG_FS
| X86_REG_GS | X86_REG_IP | X86_REG_RAX | X86_REG_RBP | X86_REG_RBX
| X86_REG_RCX | X86_REG_RDI | X86_REG_RDX | X86_REG_RIP | X86_REG_RSI
| X86_REG_RSP | X86_REG_SI | X86_REG_SIL | X86_REG_SP | X86_REG_SPL
| X86_REG_SS
| X86_REG_R8 | X86_REG_R9 | X86_REG_R10 | X86_REG_R11
| X86_REG_R12 | X86_REG_R13 | X86_REG_R14 | X86_REG_R15
| X86_REG_XMM0 | X86_REG_XMM1
| X86_REG_R8B | X86_REG_R9B | X86_REG_R10B | X86_REG_R11B
| X86_REG_R12B | X86_REG_R13B | X86_REG_R14B | X86_REG_R15B
| X86_REG_R8D | X86_REG_R9D | X86_REG_R10D | X86_REG_R11D
| X86_REG_R12D | X86_REG_R13D | X86_REG_R14D | X86_REG_R15D
| X86_REG_R8W | X86_REG_R9W | X86_REG_R10W | X86_REG_R11W
| X86_REG_R12W | X86_REG_R13W | X86_REG_R14W | X86_REG_R15W.

(** The fifteen hardware registers that [invoke] exchanges, in the order of
    its [xchg] lines. *)
Inductive gpr : Set :=
| RAX | RBX | RCX | RDX | RSI | RDI | RBP
| R8 | R9 | R10 | R11 | R12 | R13 | R14 | R15.

Definition gpr_eqb (a b : gpr) : bool :=
  match a, b with
  | RAX, RAX | RBX, RBX | RCX, RCX | RDX, RDX | RSI, RSI | RDI, RDI
  | RBP, RBP | R8, R8 | R9, R9 | R10, R10 | R11, R11 | R12, R12
  | R13, R13 | R14, R14 | R15, R15 => true
  | _, _ => false
  end.

(** The capstone name of the full 64-bit register. *)
Definition reg64 (r : gpr) : x86_reg :=
  match r with
  | RAX => X86_REG_RAX | RBX => X86_REG_RBX | RCX => X86_REG_RCX
  | RDX => X86_REG_RDX | RSI => X86_REG_RSI | RDI => X86_REG_RDI
  | RBP => X86_REG_RBP | R8 => X86_REG_R8 | R9 => X86_REG_R9
  | R10 => X86_REG_R10 | R11 => X86_REG_R11 | R12 => X86_REG_R12
  | R13 => X86_REG_R13 | R14 => X86_REG_R14 | R15 => X86_REG_R15
  end.

(** ** Layout of [struct emulator]

    The structure is declared in [emulator.hpp]; the code here only uses the
    byte offset of each member and the constant [reserved_stack_size].  A
    [layout] gives these: every field below is the [offsetof] of the member
    of the same name. *)
Record layout : Set := mk_layout {
  reserved_stack_size : Z;
  __rsp : Z;
  __rip : Z;
  v_rax : Z; v_rbx : Z; v_rcx : Z; v_rdx : Z; v_rsi : Z; v_rdi : Z;
  v_rbp : Z; v_r8 : Z; v_r9 : Z; v_r10 : Z; v_r11 : Z; v_r12 : Z;
  v_r13 : Z; v_r14 : Z; v_r15 : Z;
  v_rflags : Z
}.

(** The 64-bit members. *)
Inductive field : Set :=
| F_rsp | F_rip | F_gpr (r : gpr) | F_rflags.

Definition gpr_slot (L : layout) (r : gpr) : Z :=
  match r with
  | RAX => v_rax L | RBX => v_rbx L | RCX => v_rcx L | RDX => v_rdx L
  | RSI => v_rsi L | RDI => v_rdi L | RBP => v_rbp L | R8 => v_r8 L
  | R9 => v_r9 L | R10 => v_r10 L | R11 => v_r11 L | R12 => v_r12 L
  | R13 => v_r13 L | R14 => v_r14 L | R15 => v_r15 L
  end.

Definition offset_of (L : layout) (f : field) : Z :=
  match f with
  | F_rsp => __rsp L
  | F_rip => __rip L
  | F_gpr r => gpr_slot L r
  | F_rflags => v_rflags L
  end.

(** What a C++ compiler guarantees of the declaration: the members are
    pairwise disjoint 8-byte objects, all above the reserved stack block with
    which the structure starts, and the structure is small enough for
    [int32_t] offsets.  The reserved block has room for the three words
    [invoke] pushes. *)
Definition layout_ok (L : layout) : Prop :=
  24 <= reserved_stack_size L /\
  (forall f, reserved_stack_size L <= offset_of L f /\
             offset_of L f + 8 < 2 ^ 31) /\
  (forall f g, f <> g ->
     offset_of L f + 8 <= offset_of L g \/ offset_of L g + 8 <= offset_of L f).

(** The object at [this] lies inside the 64-bit address space. *)
Definition placed (L : layout) (this : Z) : Prop :=
  0 <= this /\ this + 2 ^ 31 <= 2 ^ 64.

(** ** Outcomes of a call *)

Inductive outcome (A : Type) : Type :=
| Ok (a : A)
| Fatal     (* [unreachable()]: the process is terminated with a diagnostic *)
| Overrun.  (* a [memcpy] past the 8-byte local: no defined behaviour *)
Arguments Ok {A} a.
Arguments Fatal {A}.
Arguments Overrun {A}.

(** Member functions run on the memory holding the object. *)
Definition M (A : Type) : Type := memory -> outcome (A * memory).

Definition ret {A} (a : A) : M A := fun m => Ok (a, m).

Definition bind {A B} (c : M A) (k : A -> M B) : M B :=
  fun m =>
    match c m with
    | Ok (a, m') => k a m'
    | Fatal => Fatal
    | Overrun => Overrun
    end.

Definition lift {A} (o : outcome A) : M A :=
  fun m =>
    match o with
    | Ok a => Ok (a, m)
    | Fatal => Fatal
    | Overrun => Overrun
    end.

Notation "x <- c ;; k" := (bind c (fun x => k))
  (at level 61, c at next level, right associativity).
Notation "c ;;; k" := (bind c (fun _ => k))
  (at level 61, right associativity).

Definition to_uint8 (x : Z) : Z := x mod 2 ^ 8.

(** ** [resolve], [set], [get] *)

Section Accessors.

Variable L : layout.

(** [x86::resolve_mapping], the register resolver of the disassembly front
    end: base register, byte offset inside it, size in bytes. *)
Variable resolve_mapping : x86_reg -> x86_reg * Z * Z.

(** The object. *)
Variable this : Z.

(** The [switch] of [resolve]: the member a base register is kept in, as an
    offset from [this]; [None] is the [default] label. *)
Definition base_of (base_reg : x86_reg) : option Z :=
  match base_reg with
  | X86_REG_RAX => Some (v_rax L)
  | X86_REG_RBP => Some (v_rbp L)
  | X86_REG_RBX => Some (v_rbx L)
  | X86_REG_RCX => Some (v_rcx L)
  | X86_REG_RDI => Some (v_rdi L)
  | X86_REG_RDX => Some (v_rdx L)
  | X86_REG_RSI => Some (v_rsi L)
  | X86_REG_R8 => Some (v_r8 L)
  | X86_REG_R9 => Some (v_r9 L)
  | X86_REG_R10 => Some (v_r10 L)
  | X86_REG_R11 => Some (v_r11 L)
  | X86_REG_R12 => Some (v_r12 L)
  | X86_REG_R13 => Some (v_r13 L)
  | X86_REG_R14 => Some (v_r14 L)
  | X86_REG_R15 => Some (v_r15 L)
  | _ => None
  end.

Definition resolve (reg : x86_reg) : outcome (Z * Z) :=
  let '(base_reg, offset, size) := resolve_mapping reg in
  match base_of base_reg with
  | Some base => Ok (to_int32 (base + offset), to_uint8 size)
  | None => Fatal
  end.

(** [memcpy( dst, &value, n )] from the 64-bit local [value]. *)
Definition memcpy_from_local (dst : Z) (value : Z) (n : Z) : M unit :=
  fun m =>
    if n <=? 8
    then Ok (tt, store_bytes m dst (le_split (Z.to_nat n) value))
    else Overrun.

(** [memcpy( &value, src, n )] into the 64-bit local [value]; the result is
    the new content of the local. *)
Definition memcpy_to_local (value : Z) (src : Z) (n : Z) : M Z :=
  fun m =>
    if n <=? 8
    then Ok (le_combine (load_bytes m src (Z.to_nat n)
                           ++ skipn (Z.to_nat n) (le_split 8 value)), m)
    else Overrun.

Definition set (reg : x86_reg) (value : Z) : M unit :=
  p <- lift (resolve reg) ;;
  memcpy_from_local (this + fst p) value (snd p).

Definition get (reg : x86_reg) : M Z :=
  let value := 0 in
  p <- lift (resolve reg) ;;
  memcpy_to_local value (this + fst p) (snd p).

(** The 15 base registers of the [switch]. *)
Definition supported_base (base_reg : x86_reg) : bool :=
  match base_of base_reg with Some _ => true | None => false end.

(** A supported register: an alias of one of the 15 base registers, lying
    inside the 8 bytes of its base. *)
Definition supported (reg : x86_reg) : bool :=
  let '(base_reg, offset, size) := resolve_mapping reg in
  supported_base base_reg && (0 <=? offset) && (0 <=? size)
    && (offset + size <=? 8).

Definition width_of (reg : x86_reg) : Z := snd (resolve_mapping reg).
Definition offset_in_base (reg : x86_reg) : Z := snd (fst (resolve_mapping reg)).
Definition base_reg_of (reg : x86_reg) : x86_reg := fst (fst (resolve_mapping reg)).

End Accessors.

(** ** The processor

    The state [invoke] works on: the fifteen registers it exchanges, the
    stack pointer, the flags and the memory. *)
Record machine : Type := mk_machine {
  regs : gpr -> Z;
  rsp : Z;
  rflags : Z;
  mem : memory
}.

Definition with_reg (r : gpr) (v : Z) (s : machine) : machine :=
  mk_machine (fun x => if gpr_eqb x r then v else regs s x)
             (rsp s) (rflags s) (mem s).
Definition with_rsp (v : Z) (s : machine) : machine :=
  mk_machine (regs s) v (rflags s) (mem s).
Definition with_rflags (v : Z) (s : machine) : machine :=
  mk_machine (regs s) (rsp s) v (mem s).
Definition with_mem (m : memory) (s : machine) : machine :=
  mk_machine (regs s) (rsp s) (rflags s) m.

(** *** Flags *)

Definition bit (n : Z) (b : bool) : Z := if b then 2 ^ n else 0.

(** CF, PF, AF, ZF, SF and OF: bits 0, 2, 4, 6, 7 and 11. *)
Definition status_flags : Z := 0x8D5.

(** The low byte has an even number of bits set. *)
Definition even_parity (x : Z) : bool :=
  negb (fold_left xorb (map (Z.testbit x) [0; 1; 2; 3; 4; 5; 6; 7]) false).

(** The status flags of the 64-bit addition [a + b]. *)
Definition add_status (a b : Z) : Z :=
  let r := wrap64 (a + b) in
  bit 0 (2 ^ 64 <=? a + b)
  + bit 2 (even_parity r)
  + bit 4 (16 <=? a mod 16 + b mod 16)
  + bit 6 (r =? 0)
  + bit 7 (Z.testbit r 63)
  + bit 11 (Bool.eqb (Z.testbit a 63) (Z.testbit b 63)
            && negb (Bool.eqb (Z.testbit a 63) (Z.testbit r 63))).

Definition flags_after_add (f a b : Z) : Z :=
  Z.lor (Z.land f (Z.lnot status_flags)) (add_status a b).

(** The image [pushfq] stores: RF and VM read as zero. *)
Definition pushfq_image (f : Z) : Z := Z.land f 0xFCFFFF.

(** The flags [popfq] can change in user mode: the status flags and TF, DF,
    NT, AC, ID.  RF is cleared; IF, IOPL, VM, VIF, VIP and the reserved bits
    keep their value. *)
Definition popfq_writable : Z := 0x244DD5.
Definition RF : Z := 0x10000.

Definition flags_after_popfq (f v : Z) : Z :=
  Z.lor (Z.land f (Z.lnot (Z.lor popfq_writable RF))) (Z.land v popfq_writable).

(** TF, the single-step flag, is bit 8.  When an instruction has set it,
    the processor raises the debug exception #DB after the instruction that
    follows; with no debugger attached the process ends there. *)
Definition single_step (f : Z) : bool := Z.testbit f 8.

(** ** [invoke] *)

(** [static constexpr uint32_t sd = emulator::reserved_stack_size;] *)
Definition sd (L : layout) : Z := reserved_stack_size L mod 2 ^ 32.

Section Invoke.

Variable L : layout.
Variable this : Z.

(** What the code at an address does when called: the state at its first
    instruction (the return address on top of the stack) is mapped to the
    state right after its [ret]; [None] when it faults or does not
    return. *)
Variable native : Z -> machine -> option machine.

(** Address of the instruction that follows the [call]. *)
Variable return_address : Z.

(** The memory operand [[ rsp - sd ] emulator.f], for the member at
    offset [f]. *)
Definition operand (f : Z) (s : machine) : Z := wrap64 (rsp s - sd L + f).

(** [mov r, rsp] *)
Definition mov_reg_rsp (r : gpr) (s : machine) : machine :=
  with_reg r (rsp s) s.

(** [mov rsp, v] *)
Definition mov_rsp (v : Z) (s : machine) : machine := with_rsp v s.

(** [add rsp, imm] *)
Definition add_rsp (imm : Z) (s : machine) : machine :=
  with_rflags (flags_after_add (rflags s) (rsp s) imm)
    (with_rsp (wrap64 (rsp s + imm)) s).

(** [mov [ rsp - sd ] emulator.f, r] *)
Definition mov_mem_reg (f : Z) (r : gpr) (s : machine) : machine :=
  with_mem (store64 (mem s) (operand f s) (regs s r)) s.

(** [xchg r, [ rsp - sd ] emulator.f] *)
Definition xchg (r : gpr) (f : Z) (s : machine) : machine :=
  let a := operand f s in
  let old := load64 (mem s) a in
  with_reg r old (with_mem (store64 (mem s) a (regs s r)) s).

(** A 64-bit push of [v]. *)
Definition push (v : Z) (s : machine) : machine :=
  let sp := wrap64 (rsp s - 8) in
  with_rsp sp (with_mem (store64 (mem s) sp v) s).

(** [pushfq] *)
Definition pushfq (s : machine) : machine :=
  push (pushfq_image (rflags s)) s.

(** [push [ rsp - sd ] emulator.f]: the operand address uses the value of
    [rsp] before the push decrements it. *)
Definition push_mem (f : Z) (s : machine) : machine :=
  push (load64 (mem s) (operand f s)) s.

(** [popfq]: the stack pointer and the flags after the instruction.  TF is
    among the flags it loads; the debug exception that a set TF brings is
    raised after the next instruction and is accounted for in [invoke]. *)
Definition popfq (s : machine) : machine :=
  let v := load64 (mem s) (rsp s) in
  with_rflags (flags_after_popfq (rflags s) v)
    (with_rsp (wrap64 (rsp s + 8)) s).

(** [pop [ rsp - sd ] emulator.f]: the operand address uses the value of
    [rsp] after the pop has incremented it. *)
Definition pop_mem (f : Z) (s : machine) : machine :=
  let v := load64 (mem s) (rsp s) in
  let s := with_rsp (wrap64 (rsp s + 8)) s in
  with_mem (store64 (mem s) (operand f s) v) s.

(** [call [ rsp - sd ] emulator.f] *)
Definition call_mem (f : Z) (s : machine) : option machine :=
  let target := load64 (mem s) (operand f s) in
  native target (push return_address s).

(** [mov rsp, [ rsp - sd ] emulator.f] *)
Definition mov_rsp_mem (f : Z) (s : machine) : machine :=
  with_rsp (load64 (mem s) (operand f s)) s.

(** "Exchange general-purpose registers." *)
Definition exchange_gprs (s : machine) : machine :=
  let s := xchg RAX (v_rax L) s in
  let s := xchg RBX (v_rbx L) s in
  let s := xchg RCX (v_rcx L) s in
  let s := xchg RDX (v_rdx L) s in
  let s := xchg RSI (v_rsi L) s in
  let s := xchg RDI (v_rdi L) s in
  let s := xchg RBP (v_rbp L) s in
  let s := xchg R8 (v_r8 L) s in
  let s := xchg R9 (v_r9 L) s in
  let s := xchg R10 (v_r10 L) s in
  let s := xchg R11 (v_r11 L) s in
  let s := xchg R12 (v_r12 L) s in
  let s := xchg R13 (v_r13 L) s in
  let s := xchg R14 (v_r14 L) s in
  let s := xchg R15 (v_r15 L) s in
  s.

(** The same exchanges as an iteration over the registers. *)
Definition all_gprs : list gpr :=
  [RAX; RBX; RCX; RDX; RSI; RDI; RBP; R8; R9; R10; R11; R12; R13; R14; R15].

Definition xchg_all (l : list gpr) (s : machine) : machine :=
  fold_left (fun s r => xchg r (gpr_slot L r) s) l s.

(** "Exchange EFLAGS." *)
Definition exchange_flags (s : machine) : machine :=
  let s := pushfq s in
  let s := push_mem (v_rflags L) s in
  let s := popfq s in
  let s := pop_mem (v_rflags L) s in
  s.

(** Everything up to the [call]. *)
Definition before_call (routine_pointer : Z) (s : machine) : machine :=
  (* __rip = routine_pointer; *)
  let s := with_mem (store64 (mem s) (this + __rip L) routine_pointer) s in
  let s := mov_reg_rsp RAX s in
  let s := mov_rsp this s in
  let s := add_rsp (sd L) s in
  let s := mov_mem_reg (__rsp L) RAX s in
  let s := exchange_gprs s in
  let s := exchange_flags s in
  s.

(** Everything after the [call]. *)
Definition after_call (s : machine) : machine :=
  let s := exchange_flags s in
  let s := exchange_gprs s in
  let s := mov_rsp_mem (__rsp L) s in
  s.

(** [invoke].  The result is [None] when the call does not come back or
    when the processor stops the process inside [invoke]: a [popfq] that
    sets TF is followed by the debug exception as soon as the next
    instruction, the [pop] that ends the flags exchange, has run.  That
    [pop] leaves the flags alone, so TF is read off the state after the
    exchange. *)
Definition invoke (routine_pointer : Z) (s : machine) : option machine :=
  let b := before_call routine_pointer s in
  if single_step (rflags b) then None
  else
    match call_mem (__rip L) b with
    | Some s' =>
        if single_step (rflags (exchange_flags s')) then None
        else Some (after_call s')
    | None => None
    end.

(** The state in which the called routine starts. *)
Definition at_entry (routine_pointer : Z) (s : machine) : machine :=
  push return_address (before_call routine_pointer s).

End Invoke.

(** ** Native routines used in the scenarios *)

(** [ret]: pops the return address. *)
Definition ret_only (s : machine) : machine :=
  with_rsp (wrap64 (rsp s + 8)) s.

(** [mov [rsp + 8], rcx; ret]: a routine that writes above its return
    address. *)
Definition store_above_routine (s : machine) : machine :=
  ret_only (with_mem (store64 (mem s) (wrap64 (rsp s + 8)) (regs s RCX)) s).

(** What the first register exchange puts into the member of [r]: the value
    of the hardware register, which for [rax] is by then the old stack
    pointer. *)
Definition exchanged_in (s : machine) (r : gpr) : Z :=
  if gpr_eqb r RAX then rsp s else regs s r.

(** [mov d, a; add d, b; ret]: for distinct [d] and [b], [d = a + b]. *)
Definition add_routine (a b d : gpr) (s : machine) : machine :=
  (* mov d, a *)
  let s := with_reg d (regs s a) s in
  (* add d, b *)
  let s := with_rflags (flags_after_add (rflags s) (regs s d) (regs s b))
             (with_reg d (wrap64 (regs s d + regs s b)) s) in
  ret_only s.

(** ** A concrete instance *)

(** Modelled from the spec: the declaration of [struct emulator]
    ([emulator.hpp]) is not among the sources.  Section 3 of the
    specification gives the members in this order: the reserved scratch
    block, the saved stack pointer, the instruction pointer, the fifteen
    general-purpose slots, the flags slot; all slots are 64 bits wide.  The
    size of the scratch block is left open there and is a parameter here. *)
Definition spec_layout (stack_size : Z) : layout :=
  let gp := stack_size + 16 in
  {| reserved_stack_size := stack_size;
     __rsp := stack_size;
     __rip := stack_size + 8;
     v_rax := gp;       v_rbx := gp + 8;   v_rcx := gp + 16;
     v_rdx := gp + 24;  v_rsi := gp + 32;  v_rdi := gp + 40;
     v_rbp := gp + 48;  v_r8 := gp + 56;   v_r9 := gp + 64;
     v_r10 := gp + 72;  v_r11 := gp + 80;  v_r12 := gp + 88;
     v_r13 := gp + 96;  v_r14 := gp + 104; v_r15 := gp + 112;
     v_rflags := gp + 120 |}.

(** Modelled from the spec: [x86::resolve_mapping] belongs to the
    disassembly front end and is not among the sources.  Per section 2 it
    returns the canonical base register, the byte offset inside that base's
    storage and the width in bytes; this is the amd64 aliasing of the
    general-purpose family (the high-byte registers sit at offset 1). *)
Definition amd64_mapping (reg : x86_reg) : x86_reg * Z * Z :=
  match reg with
  | X86_REG_RAX => (X86_REG_RAX, 0, 8) | X86_REG_EAX => (X86_REG_RAX, 0, 4)
  | X86_REG_AX => (X86_REG_RAX, 0, 2)  | X86_REG_AL => (X86_REG_RAX, 0, 1)
  | X86_REG_AH => (X86_REG_RAX, 1, 1)
  | X86_REG_RBX => (X86_REG_RBX, 0, 8) | X86_REG_EBX => (X86_REG_RBX, 0, 4)
  | X86_REG_BX => (X86_REG_RBX, 0, 2)  | X86_REG_BL => (X86_REG_RBX, 0, 1)
  | X86_REG_BH => (X86_REG_RBX, 1, 1)
  | X86_REG_RCX => (X86_REG_RCX, 0, 8) | X86_REG_ECX => (X86_REG_RCX, 0, 4)
  | X86_REG_CX => (X86_REG_RCX, 0, 2)  | X86_REG_CL => (X86_REG_RCX, 0, 1)
  | X86_REG_CH => (X86_REG_RCX, 1, 1)
  | X86_REG_RDX => (X86_REG_RDX, 0, 8) | X86_REG_EDX => (X86_REG_RDX, 0, 4)
  | X86_REG_DX => (X86_REG_RDX, 0, 2)  | X86_REG_DL => (X86_REG_RDX, 0, 1)
  | X86_REG_DH => (X86_REG_RDX, 1, 1)
  | X86_REG_RSI => (X86_REG_RSI, 0, 8) | X86_REG_ESI => (X86_REG_RSI, 0, 4)
  | X86_REG_SI => (X86_REG_RSI, 0, 2)  | X86_REG_SIL => (X86_REG_RSI, 0, 1)
  | X86_REG_RDI => (X86_REG_RDI, 0, 8) | X86_REG_EDI => (X86_REG_RDI, 0, 4)
  | X86_REG_DI => (X86_REG_RDI, 0, 2)  | X86_REG_DIL => (X86_REG_RDI, 0, 1)
  | X86_REG_RBP => (X86_REG_RBP, 0, 8) | X86_REG_EBP => (X86_REG_RBP, 0, 4)
  | X86_REG_BP => (X86_REG_RBP, 0, 2)  | X86_REG_BPL => (X86_REG_RBP, 0, 1)
  | X86_REG_RSP => (X86_REG_RSP, 0, 8) | X86_REG_ESP => (X86_REG_RSP, 0, 4)
  | X86_REG_SP => (X86_REG_RSP, 0, 2)  | X86_REG_SPL => (X86_REG_RSP, 0, 1)
  | X86_REG_RIP => (X86_REG_RIP, 0, 8) | X86_REG_EIP => (X86_REG_RIP, 0, 4)
  | X86_REG_IP => (X86_REG_RIP, 0, 2)
  | X86_REG_R8 => (X86_REG_R8, 0, 8)   | X86_REG_R8D => (X86_REG_R8, 0, 4)
  | X86_REG_R8W => (X86_REG_R8, 0, 2)  | X86_REG_R8B => (X86_REG_R8, 0, 1)
  | X86_REG_R9 => (X86_REG_R9, 0, 8)   | X86_REG_R9D => (X86_REG_R9, 0, 4)
  | X86_REG_R9W => (X86_REG_R9, 0, 2)  | X86_REG_R9B => (X86_REG_R9, 0, 1)
  | X86_REG_R10 => (X86_REG_R10, 0, 8) | X86_REG_R10D => (X86_REG_R10, 0, 4)
  | X86_REG_R10W => (X86_REG_R10, 0, 2) | X86_REG_R10B => (X86_REG_R10, 0, 1)
  | X86_REG_R11 => (X86_REG_R11, 0, 8) | X86_REG_R11D => (X86_REG_R11, 0, 4)
  | X86_REG_R11W => (X86_REG_R11, 0, 2) | X86_REG_R11B => (X86_REG_R11, 0, 1)
  | X86_REG_R12 => (X86_REG_R12, 0, 8) | X86_REG_R12D => (X86_REG_R12, 0, 4)
  | X86_REG_R12W => (X86_REG_R12, 0, 2) | X86_REG_R12B => (X86_REG_R12, 0, 1)
  | X86_REG_R13 => (X86_REG_R13, 0, 8) | X86_REG_R13D => (X86_REG_R13, 0, 4)
  | X86_REG_R13W => (X86_REG_R13, 0, 2) | X86_REG_R13B => (X86_REG_R13, 0, 1)
  | X86_REG_R14 => (X86_REG_R14, 0, 8) | X86_REG_R14D => (X86_REG_R14, 0, 4)
  | X86_REG_R14W => (X86_REG_R14, 0, 2) | X86_REG_R14B => (X86_REG_R14, 0, 1)
  | X86_REG_R15 => (X86_REG_R15, 0, 8) | X86_REG_R15D => (X86_REG_R15, 0, 4)
  | X86_REG_R15W => (X86_REG_R15, 0, 2) | X86_REG_R15B => (X86_REG_R15, 0, 1)
  | X86_REG_EFLAGS => (X86_REG_EFLAGS, 0, 8)
  | X86_REG_XMM0 => (X86_REG_XMM0, 0, 16)
  | X86_REG_XMM1 => (X86_REG_XMM1, 0, 16)
  | X86_REG_CS | X86_REG_DS | X86_REG_ES | X86_REG_FS | X86_REG_GS
  | X86_REG_SS => (reg, 0, 2)
  | X86_REG_INVALID => (X86_REG_INVALID, 0, 0)
  end.

(** ** Members of the object in memory *)

Section Members.

Variable L : layout.
Variable this : Z.

(** The address of a member. *)
Definition addr (f : field) : Z := this + offset_of L f.

(** The member [f] has the same bytes in [m'] as in [m]. *)
Definition same_field (f : field) (m m' : memory) : Prop :=
  forall x, in_footprint (addr f) 8 x -> m' x = m x.

(** The member [f] holds the 64-bit value [v]. *)
Definition holds (m : memory) (f : field) (v : Z) : Prop :=
  load_bytes m (addr f) 8 = le_split 8 v.

End Members.

(** The byte of [x] at index [i], least significant first. *)
Definition byte_at (x : Z) (i : Z) : Z := Z.shiftr x (8 * i) mod 2 ^ 8.

(** A memory filled with zero bytes. *)
Definition zero_memory : memory := fun _ => Byte.x00.

(** *** A concrete run *)

Module example.

(** A 256-byte reserved block; the object at address [0x10000]. *)
Definition L : layout := spec_layout 256.
Definition this : Z := 0x10000.

(** Code addresses: the instruction after the [call], and the routine. *)
Definition return_address : Z := 0x401000.
Definition routine : Z := 0x402000.

(** The code at every address is a bare [ret]. *)
Definition ret_native (_ : Z) (s : machine) : option machine :=
  Some (ret_only s).

(** The code at every address is [mov rax, rcx; add rax, rdx; ret]. *)
Definition add_native (_ : Z) (s : machine) : option machine :=
  Some (add_routine RCX RDX RAX s).

(** Registers [rax = 1], [rbx = 2], ... in the order of [all_gprs]; the
    stack pointer in a stack far from the object; ZF, PF and IF set. *)
Definition start : machine :=
  {| regs := fun r =>
       match r with
       | RAX => 1 | RBX => 2 | RCX => 3 | RDX => 4 | RSI => 5 | RDI => 6
       | RBP => 7 | R8 => 8 | R9 => 9 | R10 => 10 | R11 => 11 | R12 => 12
       | R13 => 13 | R14 => 14 | R15 => 15
       end;
     rsp := 0x7FFF0000;
     rflags := 0x246;
     mem := zero_memory |}.

(** The code at every address is [mov [rsp + 8], rcx; ret]. *)
Definition store_above_native (_ : Z) (s : machine) : option machine :=
  Some (store_above_routine s).

(** [start] with [0x1234] in the member of [rcx]. *)
Definition start_rcx : machine :=
  with_mem (store64 zero_memory (addr L this (F_gpr RCX)) 0x1234) start.

(** [start] with bit 8 set in [r15]. *)
Definition start_tf : machine := with_reg R15 0x100 start.

(** The same state once [invoke] has switched to the reserved stack. *)
Definition switched : machine := with_rsp (this + sd L) start.

(** Two hashes to compare. *)
Definition hash_a : hashable.hash_t := hashable.default_seed.
Definition hash_b : hashable.hash_t := hashable.of_seed64 5.

End example.

End emulator.
(** * Proofs *)

(** ** Machine integers *)

Lemma wrap64_range x : 0 <= wrap64 x < 2 ^ 64.
Proof. unfold wrap64. apply Z.mod_pos_bound. lia. Qed.

Lemma wrap64_small x : 0 <= x < 2 ^ 64 -> wrap64 x = x.
Proof. intros H. unfold wrap64. apply Z.mod_small. exact H. Qed.

Lemma wrap64_idem x : wrap64 (wrap64 x) = wrap64 x.
Proof. apply wrap64_small, wrap64_range. Qed.

Lemma to_int32_small x : - 2 ^ 31 <= x < 2 ^ 31 -> to_int32 x = x.
Proof. intros H. unfold to_int32. rewrite Z.mod_small; lia. Qed.

(** ** Properties of [hash_t] *)

Example hash_step_default_0 :
  hashable.step hashable.default_seed 0 =
  hashable.mk_hash 0xd228cb69101a8caf 0x78912b704e4a147f.
Proof. vm_compute. reflexivity. Qed.

Lemma mul_split_mod (M P X : Z) :
  0 < M ->
  (P + X * M) mod (M * M) = ((P / M + X) mod M) * M + P mod M.
Proof.
  intros HM.
  rewrite Z.rem_mul_r by lia.
  rewrite Z_mod_plus_full, Z.div_add by lia.
  ring.
Qed.

(** C10. One step of [operator<<] on the state [(h0, h1)] with the byte [b]
    yields, read as a 128-bit integer, exactly
    [((h0 * 2^64 + (h1 xor b)) * (0x1000000 * 2^64 + 0x13B)) mod 2^128]: the
    [_umul128] of the low words together with the two cross products added
    into the high word is the full multiplication modulo [2^128]. *)
Theorem hash_step_is_mul_mod_2_128 (h0 h1 b : Z) :
  hashable.as_u128 (hashable.step (hashable.mk_hash h0 h1) b) =
  ((h0 * 2 ^ 64 + Z.lxor h1 b) *
   (0x0000000001000000 * 2 ^ 64 + 0x000000000000013B)) mod 2 ^ 128.
Proof.
  unfold hashable.as_u128, hashable.step, hashable.umul128, wrap64.
  cbn [hashable.value0 hashable.value1 hashable.prime].
  set (la := Z.lxor h1 b).
  change (2 ^ 128) with (2 ^ 64 * 2 ^ 64).
  set (M := 2 ^ 64).
  assert (HM : 0 < M) by (subst M; lia).
  set (P := la * 315).
  replace ((h0 * M + la) * (16777216 * M + 315))
    with (P + (h0 * 315 + la * 16777216 + h0 * 16777216 * M) * M)
    by (subst P; ring).
  rewrite mul_split_mod by exact HM.
  f_equal. f_equal.
  rewrite <- (Zplus_mod (P / M) (h0 * 315) M).
  rewrite <- Zplus_mod.
  replace (P / M + (h0 * 315 + la * 16777216 + h0 * 16777216 * M))
    with (P / M + h0 * 315 + la * 16777216 + (h0 * 16777216) * M) by ring.
  rewrite Z_mod_plus_full. reflexivity.
Qed.


(** ** [hash_t]: the whole of [operator<<], and the comparisons *)

Lemma lxor_range_64 a b :
  0 <= a < 2 ^ 64 -> 0 <= b < 2 ^ 64 -> 0 <= Z.lxor a b < 2 ^ 64.
Proof.
  intros Ha Hb. split.
  - apply Z.lxor_nonneg. lia.
  - destruct (Z.eq_dec (Z.lxor a b) 0) as [-> | Hnz]; [lia |].
    assert (Hpos : 0 < Z.lxor a b)
      by (pose proof (proj2 (Z.lxor_nonneg a b) ltac:(lia)); lia).
    apply Z.log2_lt_pow2; [exact Hpos |].
    destruct (Z.eq_dec a 0) as [-> | Ha0].
    + rewrite Z.lxor_0_l.
      destruct (Z.eq_dec b 0) as [-> | Hb0]; [cbn; lia |].
      apply Z.log2_lt_pow2; lia.
    + destruct (Z.eq_dec b 0) as [-> | Hb0].
      * rewrite Z.lxor_0_r. apply Z.log2_lt_pow2; lia.
      * pose proof (Z.log2_lxor a b ltac:(lia) ltac:(lia)) as H.
        assert (Z.log2 a < 64) by (apply Z.log2_lt_pow2; lia).
        assert (Z.log2 b < 64) by (apply Z.log2_lt_pow2; lia).
        lia.
Qed.

Lemma lxor_low_word h0 h1 b :
  0 <= h1 < 2 ^ 64 -> 0 <= b < 2 ^ 64 ->
  Z.lxor (h0 * 2 ^ 64 + h1) b = h0 * 2 ^ 64 + Z.lxor h1 b.
Proof.
  intros Hh Hb. pose proof (lxor_range_64 h1 b Hh Hb) as Hx.
  apply Z.bits_inj'. intros n Hn. rewrite Z.lxor_spec.
  destruct (Z.lt_ge_cases n 64) as [Hlt | Hge].
  - rewrite <- (Z.mod_pow2_bits_low (h0 * 2 ^ 64 + h1) 64 n) by lia.
    rewrite <- (Z.mod_pow2_bits_low (h0 * 2 ^ 64 + Z.lxor h1 b) 64 n) by lia.
    rewrite !(Z.add_comm (h0 * 2 ^ 64)), !Z_mod_plus_full.
    rewrite !Z.mod_small by lia. symmetry. apply Z.lxor_spec.
  - replace n with ((n - 64) + 64) by lia.
    rewrite <- !Z.div_pow2_bits by lia.
    rewrite !(Z.add_comm (h0 * 2 ^ 64)), !Z.div_add by lia.
    rewrite !Z.div_small by lia. rewrite Z.bits_0, xorb_false_r.
    reflexivity.
Qed.

Lemma step_in_range h b : hashable.in_range (hashable.step h b).
Proof.
  unfold hashable.in_range, hashable.step, hashable.umul128.
  cbn [hashable.value0 hashable.value1]. split; apply wrap64_range.
Qed.

(** One step on the 128-bit reading (the content of the step, for use
    below). *)
Lemma as_u128_step h0 h1 b :
  hashable.as_u128 (hashable.step (hashable.mk_hash h0 h1) b) =
  ((h0 * 2 ^ 64 + Z.lxor h1 b) * hashable.as_u128 hashable.prime) mod 2 ^ 128.
Proof.
  unfold hashable.as_u128, hashable.step, hashable.umul128, wrap64.
  cbn [hashable.value0 hashable.value1 hashable.prime].
  set (la := Z.lxor h1 b).
  change (2 ^ 128) with (2 ^ 64 * 2 ^ 64).
  set (M := 2 ^ 64).
  assert (HM : 0 < M) by (subst M; lia).
  set (P := la * 315).
  replace ((h0 * M + la) * (16777216 * M + 315))
    with (P + (h0 * 315 + la * 16777216 + h0 * 16777216 * M) * M)
    by (subst P; ring).
  rewrite mul_split_mod by exact HM.
  f_equal. f_equal.
  rewrite <- (Zplus_mod (P / M) (h0 * 315) M).
  rewrite <- Zplus_mod.
  replace (P / M + (h0 * 315 + la * 16777216 + h0 * 16777216 * M))
    with (P / M + h0 * 315 + la * 16777216 + (h0 * 16777216) * M) by ring.
  rewrite Z_mod_plus_full. reflexivity.
Qed.

Lemma as_u128_step_xor h b :
  hashable.in_range h -> 0 <= b < 2 ^ 8 ->
  hashable.as_u128 (hashable.step h b) =
  hashable.xor_mul_128 (hashable.as_u128 h) b.
Proof.
  intros (_ & H1) Hb. destruct h as [h0 h1]. cbn [hashable.value1] in H1.
  rewrite as_u128_step. unfold hashable.xor_mul_128.
  change (hashable.as_u128 (hashable.mk_hash h0 h1)) with (h0 * 2 ^ 64 + h1).
  rewrite lxor_low_word by lia. reflexivity.
Qed.

(** X1. Appending the bytes of an item to a hash whose words are 64-bit
    values is the 128-bit computation "xor the byte, multiply by the
    prime, keep 128 bits" run over the bytes in order, starting from the
    128-bit reading of the hash; the words stay 64-bit values. *)
Theorem append_is_xor_mul_128 (bytes : list Z) : forall h : hashable.hash_t,
  hashable.in_range h ->
  Forall (fun b => 0 <= b < 2 ^ 8) bytes ->
  hashable.in_range (hashable.append h bytes) /\
  hashable.as_u128 (hashable.append h bytes) =
  fold_left hashable.xor_mul_128 bytes (hashable.as_u128 h).
Proof.
  induction bytes as [| b bytes IH]; intros h Hh Hbs.
  - split; [exact Hh | reflexivity].
  - inversion Hbs as [| ? ? Hb Hrest]; subst.
    change (hashable.append h (b :: bytes))
      with (hashable.append (hashable.step h b) bytes).
    cbn [fold_left]. rewrite <- (as_u128_step_xor h b Hh Hb).
    apply IH; [apply step_in_range | exact Hrest].
Qed.

Lemma mul_prime_cancel x :
  0 <= x < 2 ^ 128 ->
  ((x * hashable.as_u128 hashable.prime) mod 2 ^ 128 * hashable.prime_inverse)
    mod 2 ^ 128 = x.
Proof.
  intros Hx. rewrite Z.mul_mod_idemp_l by lia.
  rewrite <- Z.mul_assoc, Z.mul_mod by lia.
  replace ((hashable.as_u128 hashable.prime * hashable.prime_inverse)
             mod 2 ^ 128) with 1 by (vm_compute; reflexivity).
  rewrite Z.mul_1_r, Z.mod_mod by lia. apply Z.mod_small. exact Hx.
Qed.

Lemma as_u128_inj h h' :
  hashable.in_range h -> hashable.in_range h' ->
  hashable.as_u128 h = hashable.as_u128 h' -> h = h'.
Proof.
  destruct h as [a b], h' as [a' b']. unfold hashable.in_range, hashable.as_u128.
  cbn [hashable.value0 hashable.value1]. intros (Ha & Hb) (Ha' & Hb') E.
  assert (a = a') by lia. assert (b = b') by lia. congruence.
Qed.

Lemma step_xored_state h b h' b' :
  hashable.in_range h -> hashable.in_range h' ->
  0 <= b < 2 ^ 8 -> 0 <= b' < 2 ^ 8 ->
  hashable.step h b = hashable.step h' b' ->
  hashable.value0 h = hashable.value0 h' /\
  Z.lxor (hashable.value1 h) b = Z.lxor (hashable.value1 h') b'.
Proof.
  destruct h as [a c], h' as [a' c']. unfold hashable.in_range.
  cbn [hashable.value0 hashable.value1]. intros (Ha & Hc) (Ha' & Hc') Hb Hb' E.
  apply (f_equal hashable.as_u128) in E. rewrite !as_u128_step in E.
  pose proof (lxor_range_64 c b Hc ltac:(lia)) as Hx.
  pose proof (lxor_range_64 c' b' Hc' ltac:(lia)) as Hx'.
  apply (f_equal (fun x => (x * hashable.prime_inverse) mod 2 ^ 128)) in E.
  rewrite !mul_prime_cancel in E by lia.
  split; lia.
Qed.

(** X2. Appending one byte loses nothing of the state: two hashes with
    64-bit words that are equal after the same byte has been appended were
    equal before. *)
Theorem step_injective_in_state (h h' : hashable.hash_t) (b : Z) :
  hashable.in_range h -> hashable.in_range h' -> 0 <= b < 2 ^ 8 ->
  hashable.step h b = hashable.step h' b -> h = h'.
Proof.
  intros Hh Hh' Hb E.
  destruct (step_xored_state h b h' b Hh Hh' Hb Hb E) as (E0 & E1).
  destruct h as [a c], h' as [a' c']. cbn [hashable.value0 hashable.value1] in *.
  f_equal; [exact E0 |].
  apply (f_equal (fun x => Z.lxor x b)) in E1.
  rewrite !Z.lxor_assoc, !Z.lxor_nilpotent, !Z.lxor_0_r in E1. exact E1.
Qed.

(** X3. Appending two different bytes to the same hash (64-bit words)
    gives two different hashes. *)
Theorem step_injective_in_byte (h : hashable.hash_t) (b b' : Z) :
  hashable.in_range h -> 0 <= b < 2 ^ 8 -> 0 <= b' < 2 ^ 8 ->
  hashable.step h b = hashable.step h b' -> b = b'.
Proof.
  intros Hh Hb Hb' E.
  destruct (step_xored_state h b h b' Hh Hh Hb Hb' E) as (_ & E1).
  apply (f_equal (Z.lxor (hashable.value1 h))) in E1.
  rewrite <- !Z.lxor_assoc, !Z.lxor_nilpotent, !Z.lxor_0_l in E1. exact E1.
Qed.

(** X4. On hashes with 64-bit words, [operator<] is the order of the
    128-bit integers with [value[0]] as the high word, [operator==] is
    equality and [operator!=] its negation. *)
Theorem comparisons_are_those_of_u128 (h o : hashable.hash_t) :
  hashable.in_range h -> hashable.in_range o ->
  (hashable.lt h o = true <-> hashable.as_u128 h < hashable.as_u128 o) /\
  (hashable.eqb h o = true <-> h = o) /\
  (hashable.neb h o = true <-> h <> o).
Proof.
  intros Hh Ho.
  assert (Heq : hashable.eqb h o = true <-> h = o).
  { destruct h as [a b], o as [a' b']. unfold hashable.eqb.
    cbn [hashable.value0 hashable.value1].
    rewrite andb_true_iff, !Z.eqb_eq. split; [intros (-> & ->); reflexivity |].
    intros E. injection E as -> ->. split; reflexivity. }
  split; [| split; [exact Heq |]].
  - destruct h as [a b], o as [a' b']. unfold hashable.lt, hashable.as_u128.
    unfold hashable.in_range in *. cbn [hashable.value0 hashable.value1] in *.
    rewrite orb_true_iff, andb_true_iff, !Z.ltb_lt, Z.eqb_eq. lia.
  - unfold hashable.neb. rewrite negb_true_iff, <- not_true_iff_false.
    rewrite Heq. reflexivity.
Qed.
(** ** Memory lemmas *)

Lemma wrap64_add_l a i : wrap64 (wrap64 a + i) = wrap64 (a + i).
Proof. unfold wrap64. apply Zplus_mod_idemp_l. Qed.

Lemma wrap64_shift_neq a i :
  0 < i < 2 ^ 64 -> wrap64 (a + i) <> wrap64 a.
Proof.
  unfold wrap64. intros Hi E.
  assert (H : (a + i - a) mod 2 ^ 64 = 0).
  { rewrite Zminus_mod, E, Z.sub_diag. reflexivity. }
  replace (a + i - a) with i in H by ring.
  rewrite Z.mod_small in H; lia.
Qed.

Lemma in_footprint_S a n x :
  in_footprint a (S n) x <-> x = wrap64 a \/ in_footprint (a + 1) n x.
Proof.
  unfold in_footprint. split.
  - intros (i & Hi & ->).
    destruct (Z.eq_dec i 0) as [-> | Hn].
    + left. f_equal. ring.
    + right. exists (i - 1). split; [lia | f_equal; ring].
  - intros [-> | (i & Hi & ->)].
    + exists 0. split; [lia | f_equal; ring].
    + exists (i + 1). split; [lia | f_equal; ring].
Qed.

Lemma store_bytes_frame bs : forall m a x,
  ~ in_footprint a (length bs) x -> store_bytes m a bs x = m x.
Proof.
  induction bs as [| b bs IH]; intros m a x H; cbn [store_bytes]; [reflexivity |].
  cbn [length] in H. rewrite in_footprint_S in H.
  rewrite IH by tauto. unfold upd.
  destruct (Z.eqb_spec x (wrap64 a)); tauto.
Qed.

Lemma head_not_in_tail a n :
  Z.of_nat n < 2 ^ 64 -> ~ in_footprint (a + 1) n (wrap64 a).
Proof.
  intros Hn (i & Hi & E). symmetry in E. revert E.
  replace (a + 1 + i) with (a + (i + 1)) by ring.
  apply wrap64_shift_neq. lia.
Qed.

Lemma load_store_same bs : forall m a,
  Z.of_nat (length bs) <= 2 ^ 64 ->
  load_bytes (store_bytes m a bs) a (length bs) = bs.
Proof.
  induction bs as [| b bs IH]; intros m a H; cbn [store_bytes load_bytes length];
    [reflexivity |].
  cbn [length] in H. f_equal.
  - rewrite store_bytes_frame by (apply head_not_in_tail; lia).
    unfold upd. rewrite Z.eqb_refl. reflexivity.
  - apply IH. lia.
Qed.

Lemma load_bytes_ext n : forall m m' a,
  (forall x, in_footprint a n x -> m' x = m x) ->
  load_bytes m' a n = load_bytes m a n.
Proof.
  induction n as [| n IH]; intros m m' a H; cbn [load_bytes]; [reflexivity |].
  f_equal.
  - apply H. apply in_footprint_S. left. reflexivity.
  - apply IH. intros x Hx. apply H. apply in_footprint_S. right. exact Hx.
Qed.

Lemma length_load_bytes n : forall m a, length (load_bytes m a n) = n.
Proof. induction n; intros; cbn [load_bytes length]; auto. Qed.

Lemma store_load_same n : forall m a x,
  store_bytes m a (load_bytes m a n) x = m x.
Proof.
  induction n as [| n IH]; intros m a x; cbn [load_bytes store_bytes]; [reflexivity |].
  rewrite <- (load_bytes_ext n m (upd m (wrap64 a) (m (wrap64 a))) (a + 1)).
  - rewrite IH. unfold upd. destruct (Z.eqb_spec x (wrap64 a)); congruence.
  - intros y _. unfold upd. destruct (Z.eqb_spec y (wrap64 a)); congruence.
Qed.

(** With no wrap-around, membership in a footprint is an interval test. *)
Lemma in_footprint_interval a n x :
  0 <= a -> a + Z.of_nat n <= 2 ^ 64 ->
  (in_footprint a n x <-> a <= x < a + Z.of_nat n).
Proof.
  intros Ha Hn. unfold in_footprint. split.
  - intros (i & Hi & ->). rewrite wrap64_small; lia.
  - intros Hx. exists (x - a). split; [lia |].
    replace (a + (x - a)) with x by ring. rewrite wrap64_small; lia.
Qed.


(** ** More on bytes *)

Lemma store_bytes_nth bs : forall m a i d,
  Z.of_nat (length bs) <= 2 ^ 64 ->
  (i < length bs)%nat ->
  store_bytes m a bs (wrap64 (a + Z.of_nat i)) = nth i bs d.
Proof.
  induction bs as [| b bs IH]; intros m a i d Hlen Hi; cbn [length] in *; [lia |].
  cbn [store_bytes]. destruct i as [| i].
  - cbn [nth]. replace (a + Z.of_nat 0) with a by lia.
    rewrite store_bytes_frame by (apply head_not_in_tail; lia).
    unfold upd. rewrite Z.eqb_refl. reflexivity.
  - cbn [nth]. replace (a + Z.of_nat (S i)) with (a + 1 + Z.of_nat i) by lia.
    apply IH; lia.
Qed.

Lemma load_bytes_nth n : forall m a i d,
  (i < n)%nat -> nth i (load_bytes m a n) d = m (wrap64 (a + Z.of_nat i)).
Proof.
  induction n as [| n IH]; intros m a i d Hi; [lia |].
  cbn [load_bytes]. destruct i as [| i]; cbn [nth].
  - f_equal. f_equal. lia.
  - rewrite IH by lia. f_equal. f_equal. lia.
Qed.

Lemma byte_at_le_combine bs i d :
  (i < length bs)%nat ->
  emulator.byte_at (le_combine bs) (Z.of_nat i) = byte.unsigned (nth i bs d).
Proof.
  intros Hi. unfold emulator.byte_at.
  pose proof (nth_error_le_split i (length bs) (le_combine bs) Hi) as E.
  rewrite split_le_combine in E.
  rewrite (nth_error_nth' bs d Hi) in E. injection E as E.
  rewrite E, byte.unsigned_of_Z. unfold byte.wrap.
  replace (8 * Z.of_nat i) with (8 * Z.of_nat i)%Z by reflexivity.
  reflexivity.
Qed.

Lemma byte_at_le_split n v i d :
  (i < n)%nat ->
  byte.unsigned (nth i (le_split n v) d) = emulator.byte_at v (Z.of_nat i).
Proof.
  intros Hi. unfold emulator.byte_at.
  pose proof (nth_error_le_split i n v Hi) as E.
  rewrite (nth_error_nth' (le_split n v) d) in E
    by (rewrite length_le_split; exact Hi).
  injection E as E. rewrite E, byte.unsigned_of_Z. reflexivity.
Qed.

(** The bytes of the zero-initialised local that a short [memcpy] leaves in
    place do not contribute. *)
Lemma le_combine_zero_tail bs n :
  (n <= 8)%nat ->
  le_combine (bs ++ skipn n (le_split 8 0)) = le_combine bs.
Proof.
  intros Hn. rewrite skipn_le_split by exact Hn.
  rewrite le_combine_app, le_combine_split.
  rewrite Z.shiftr_0_l, Z.mod_0_l by (apply Z.pow_nonzero; lia).
  rewrite Z.shiftl_0_l, Z.lor_0_r. reflexivity.
Qed.

(** ** The accessors *)

Section AccessorProofs.

Import emulator.

Variable L : layout.
Variable resolve_mapping : x86_reg -> x86_reg * Z * Z.
Variable this : Z.

Local Abbreviation resolve := (resolve L resolve_mapping).
Local Abbreviation set := (set L resolve_mapping this).
Local Abbreviation get := (get L resolve_mapping this).
Local Abbreviation supported := (supported L resolve_mapping).
Local Abbreviation width_of := (width_of resolve_mapping).
Local Abbreviation offset_in_base := (offset_in_base resolve_mapping).
Local Abbreviation base_reg_of := (base_reg_of resolve_mapping).

Lemma gpr_eqb_spec a b : reflect (a = b) (gpr_eqb a b).
Proof. destruct a, b; constructor; congruence. Qed.

Lemma base_of_reg64 r : base_of L (reg64 r) = Some (gpr_slot L r).
Proof. destruct r; reflexivity. Qed.

Lemma base_of_inv b base :
  base_of L b = Some base -> exists r, b = reg64 r /\ base = gpr_slot L r.
Proof.
  destruct b; cbn; intros E; try discriminate; injection E as <-;
    [ exists RAX | exists RBP | exists RBX | exists RCX | exists RDI
    | exists RDX | exists RSI | exists R8 | exists R9 | exists R10
    | exists R11 | exists R12 | exists R13 | exists R14 | exists R15 ];
    split; reflexivity.
Qed.

Lemma to_uint8_small x : 0 <= x < 2 ^ 8 -> to_uint8 x = x.
Proof. intros H. unfold to_uint8. apply Z.mod_small. exact H. Qed.

(** What [supported] says. *)
Lemma supported_inv reg :
  supported reg = true ->
  exists base,
    base_of L (base_reg_of reg) = Some base /\
    0 <= offset_in_base reg /\ 0 <= width_of reg /\
    offset_in_base reg + width_of reg <= 8 /\
    resolve reg = Ok (to_int32 (base + offset_in_base reg), width_of reg).
Proof.
  unfold emulator.supported, emulator.resolve, emulator.width_of,
    emulator.offset_in_base, emulator.base_reg_of, supported_base.
  destruct (resolve_mapping reg) as [[b o] s]. cbn [fst snd].
  destruct (base_of L b) as [base |] eqn:Eb; cbn [andb]; [| discriminate].
  intros H. apply andb_prop in H as [H H3]. apply andb_prop in H as [H1 H2].
  apply Z.leb_le in H1, H2, H3.
  exists base. repeat split; try assumption.
  rewrite to_uint8_small by lia. reflexivity.
Qed.

Lemma supported_inv_ok reg :
  layout_ok L -> supported reg = true ->
  exists r,
    base_reg_of reg = reg64 r /\
    0 <= offset_in_base reg /\ 0 <= width_of reg /\
    offset_in_base reg + width_of reg <= 8 /\
    resolve reg = Ok (gpr_slot L r + offset_in_base reg, width_of reg).
Proof.
  intros (Hsd & Hin & _) H.
  destruct (supported_inv reg H) as (base & Eb & Ho & Hw & How & E).
  destruct (base_of_inv _ _ Eb) as (r & Er & ->).
  exists r. repeat split; try assumption.
  rewrite E. pose proof (Hin (F_gpr r)) as Hr. cbn [offset_of] in Hr.
  rewrite to_int32_small by lia. reflexivity.
Qed.

Lemma set_eq reg value m off sz :
  resolve reg = Ok (off, sz) -> sz <= 8 ->
  set reg value m =
  Ok (tt, store_bytes m (this + off) (le_split (Z.to_nat sz) value)).
Proof.
  intros E Hsz. unfold emulator.set, bind, lift, memcpy_from_local.
  rewrite E. cbn [fst snd].
  destruct (Z.leb_spec sz 8); [reflexivity | lia].
Qed.

Lemma get_eq reg m off sz :
  resolve reg = Ok (off, sz) -> sz <= 8 ->
  get reg m = Ok (le_combine (load_bytes m (this + off) (Z.to_nat sz)), m).
Proof.
  intros E Hsz. unfold emulator.get, bind, lift, memcpy_to_local.
  rewrite E. cbn [fst snd].
  destruct (Z.leb_spec sz 8); [| lia].
  rewrite le_combine_zero_tail by lia. reflexivity.
Qed.

Lemma reg64_inj r r' : reg64 r = reg64 r' -> r = r'.
Proof. destruct r, r'; cbn; congruence. Qed.

(** C1. For a supported register [reg] and any value [v], [set(reg, v)]
    followed by [get(reg)] returns [v] truncated to the width of [reg] and
    zero-extended, whatever the memory held before. *)
Theorem set_then_get (reg : x86_reg) (v : Z) (m : memory) :
  supported reg = true ->
  exists m',
    (set reg v ;;; get reg) m = Ok (v mod 2 ^ (8 * width_of reg), m').
Proof.
  intros H.
  destruct (supported_inv reg H) as (base & _ & Ho & Hw & How & E).
  set (off := to_int32 (base + offset_in_base reg)) in *.
  exists (store_bytes m (this + off) (le_split (Z.to_nat (width_of reg)) v)).
  unfold bind at 1. rewrite (set_eq reg v m off (width_of reg) E) by lia.
  rewrite (get_eq reg _ off (width_of reg) E) by lia.
  f_equal. f_equal.
  rewrite <- (length_le_split (Z.to_nat (width_of reg)) v) at 2.
  rewrite load_store_same by (rewrite length_le_split; lia).
  rewrite le_combine_split. f_equal. f_equal. lia.
Qed.

(** The [switch] has no label beyond the fifteen registers. *)
Lemma base_of_other b :
  (forall r : gpr, b <> reg64 r) -> base_of L b = None.
Proof.
  intros H. destruct b; try reflexivity; exfalso;
    first [ apply (H RAX); reflexivity | apply (H RBX); reflexivity
          | apply (H RCX); reflexivity | apply (H RDX); reflexivity
          | apply (H RSI); reflexivity | apply (H RDI); reflexivity
          | apply (H RBP); reflexivity | apply (H R8); reflexivity
          | apply (H R9); reflexivity | apply (H R10); reflexivity
          | apply (H R11); reflexivity | apply (H R12); reflexivity
          | apply (H R13); reflexivity | apply (H R14); reflexivity
          | apply (H R15); reflexivity ].
Qed.

(** C3. When the base register that [reg] resolves to is none of the
    fifteen registers [rax], [rbx], [rcx], [rdx], [rsi], [rdi], [rbp],
    [r8] ... [r15], [resolve] takes the fatal path, and so do [set] and
    [get], on every call and for every memory; no offset/width pair is
    returned. *)
Theorem unsupported_base_is_fatal (reg : x86_reg) :
  (forall r : gpr, base_reg_of reg <> reg64 r) ->
  resolve reg = Fatal /\
  (forall p, resolve reg <> Ok p) /\
  (forall v m, set reg v m = Fatal) /\
  (forall m, get reg m = Fatal).
Proof.
  unfold emulator.base_reg_of, emulator.set, emulator.get,
    bind, lift, emulator.resolve.
  destruct (resolve_mapping reg) as [[b o] s]. cbn [fst snd].
  intros H. rewrite (base_of_other b H).
  repeat split; try reflexivity. intros p. discriminate.
Qed.

(** C8. For a register that the resolver places inside the base register
    [r], one of the fifteen, [resolve] returns the byte offset, counted
    from the start of the object, of the member that belongs to [r]
    ([v_rax] for [rax], [v_rbx] for [rbx], ...) plus the offset inside the
    base, paired with the width in bytes. *)
Theorem resolve_offset_and_width (reg : x86_reg) (r : gpr) :
  layout_ok L ->
  base_reg_of reg = reg64 r ->
  0 <= offset_in_base reg -> 0 <= width_of reg ->
  offset_in_base reg + width_of reg <= 8 ->
  resolve reg = Ok (gpr_slot L r + offset_in_base reg, width_of reg).
Proof.
  unfold emulator.base_reg_of, emulator.offset_in_base, emulator.width_of,
    emulator.resolve.
  destruct (resolve_mapping reg) as [[b o] s]. cbn [fst snd].
  intros (Hsd & Hin & _) -> Ho Hs Hos.
  pose proof (Hin (F_gpr r)) as Hr. cbn [offset_of] in Hr.
  rewrite base_of_reg64, to_int32_small, to_uint8_small by lia.
  reflexivity.
Qed.

(** C9. [get] on a supported register returns a value and leaves the
    memory, hence every member of the object, exactly as it was. *)
Theorem get_changes_nothing (reg : x86_reg) (m : memory) :
  supported reg = true ->
  exists v, get reg m = Ok (v, m).
Proof.
  intros H.
  destruct (supported_inv reg H) as (base & _ & Ho & Hw & How & E).
  eexists. apply (get_eq reg m _ _ E). lia.
Qed.

(** C2. [set] on a register resolving to [(off, w)] writes the [w] low
    bytes of the value at [this + off] and changes no other byte.  For
    two aliases [lo] and [full] of one base register,
    [set(full, V); set(lo, v2); get(full)] is [V] with exactly the bytes
    that [lo] covers replaced by those of [v2]. *)
Theorem set_writes_only_its_bytes :
  layout_ok L -> placed L this ->
  (forall reg v m, supported reg = true ->
     exists off m',
       resolve reg = Ok (off, width_of reg) /\
       set reg v m = Ok (tt, m') /\
       load_bytes m' (this + off) (Z.to_nat (width_of reg))
         = le_split (Z.to_nat (width_of reg)) v /\
       (forall x, ~ (this + off <= x < this + off + width_of reg) ->
                  m' x = m x)) /\
  (forall lo full V v2 m,
     supported lo = true -> supported full = true ->
     base_reg_of lo = base_reg_of full ->
     exists m' r,
       (set full V ;;; set lo v2 ;;; get full) m = Ok (r, m') /\
       0 <= r < 2 ^ (8 * width_of full) /\
       forall i, 0 <= i < width_of full ->
         byte_at r i =
         if (offset_in_base lo <=? offset_in_base full + i)
            && (offset_in_base full + i <? offset_in_base lo + width_of lo)
         then byte_at v2 (offset_in_base full + i - offset_in_base lo)
         else byte_at V i).
Proof.
  intros HL (Hthis & Hend). pose proof HL as (Hsd & Hin & _). split.
  - intros reg v m H.
    destruct (supported_inv_ok reg HL H) as (r & _ & Ho & Hw & How & E).
    pose proof (Hin (F_gpr r)) as Hr. cbn [offset_of] in Hr.
    set (off := gpr_slot L r + offset_in_base reg) in *.
    exists off, (store_bytes m (this + off) (le_split (Z.to_nat (width_of reg)) v)).
    split; [exact E |]. split; [apply (set_eq reg v m off _ E); lia |]. split.
    + rewrite <- (length_le_split (Z.to_nat (width_of reg)) v) at 2.
      apply load_store_same. rewrite length_le_split. lia.
    + intros x Hx. apply store_bytes_frame. rewrite length_le_split.
      rewrite in_footprint_interval by lia. lia.
  - intros lo full V v2 m Hlo Hfull Hbase.
    destruct (supported_inv_ok lo HL Hlo) as (r' & Er' & Hol & Hwl & Howl & El).
    destruct (supported_inv_ok full HL Hfull) as (r & Er & Hof & Hwf & Howf & Ef).
    assert (r' = r) by (apply reg64_inj; congruence). subst r'.
    pose proof (Hin (F_gpr r)) as Hr. cbn [offset_of] in Hr.
    set (S := gpr_slot L r) in *.
    set (o_l := offset_in_base lo) in *. set (wl := width_of lo) in *.
    set (o_f := offset_in_base full) in *. set (wf := width_of full) in *.
    set (m1 := store_bytes m (this + (S + o_f)) (le_split (Z.to_nat wf) V)).
    set (m2 := store_bytes m1 (this + (S + o_l)) (le_split (Z.to_nat wl) v2)).
    exists m2, (le_combine (load_bytes m2 (this + (S + o_f)) (Z.to_nat wf))).
    split; [| split].
    + unfold bind at 1. rewrite (set_eq full V m _ _ Ef) by lia.
      unfold bind at 1. fold m1. rewrite (set_eq lo v2 m1 _ _ El) by lia.
      fold m2. apply (get_eq full m2 _ _ Ef). lia.
    + pose proof (le_combine_bound (load_bytes m2 (this + (S + o_f)) (Z.to_nat wf))) as B.
      rewrite length_load_bytes in B.
      replace (8 * Z.of_nat (Z.to_nat wf)) with (8 * wf) in B by lia. exact B.
    + intros i Hi.
      replace i with (Z.of_nat (Z.to_nat i)) at 1 by lia.
      rewrite (byte_at_le_combine _ _ Byte.x00)
        by (rewrite length_load_bytes; lia).
      rewrite load_bytes_nth by lia.
      replace (Z.of_nat (Z.to_nat i)) with i by lia.
      destruct (Z.leb_spec o_l (o_f + i)) as [H1 | H1];
        destruct (Z.ltb_spec (o_f + i) (o_l + wl)) as [H2 | H2]; cbn [andb].
      * replace (this + (S + o_f) + i)
          with (this + (S + o_l) + Z.of_nat (Z.to_nat (o_f + i - o_l))) by lia.
        unfold m2. rewrite (store_bytes_nth _ _ _ _ Byte.x00)
          by (rewrite length_le_split; lia).
        rewrite byte_at_le_split by lia. f_equal. lia.
      * unfold m2. rewrite store_bytes_frame.
        2:{ rewrite length_le_split, in_footprint_interval by lia.
            rewrite wrap64_small by lia. lia. }
        replace (this + (S + o_f) + i)
          with (this + (S + o_f) + Z.of_nat (Z.to_nat i)) by lia.
        unfold m1. rewrite (store_bytes_nth _ _ _ _ Byte.x00)
          by (rewrite length_le_split; lia).
        rewrite byte_at_le_split by lia. f_equal. lia.
      * unfold m2. rewrite store_bytes_frame.
        2:{ rewrite length_le_split, in_footprint_interval by lia.
            rewrite wrap64_small by lia. lia. }
        replace (this + (S + o_f) + i)
          with (this + (S + o_f) + Z.of_nat (Z.to_nat i)) by lia.
        unfold m1. rewrite (store_bytes_nth _ _ _ _ Byte.x00)
          by (rewrite length_le_split; lia).
        rewrite byte_at_le_split by lia. f_equal. lia.
      * lia.
Qed.

End AccessorProofs.

(** ** 64-bit slots *)

Lemma load_bytes_store64_same m a v :
  load_bytes (store64 m a v) a 8 = le_split 8 v.
Proof.
  unfold store64.
  rewrite <- (length_le_split 8 v) at 2.
  apply load_store_same. rewrite length_le_split. lia.
Qed.

Lemma load64_store64_same m a v : load64 (store64 m a v) a = wrap64 v.
Proof.
  unfold load64. rewrite load_bytes_store64_same, le_combine_split.
  reflexivity.
Qed.

Lemma store64_frame m a v x :
  ~ in_footprint a 8 x -> store64 m a v x = m x.
Proof.
  intros H. unfold store64. apply store_bytes_frame.
  rewrite length_le_split. exact H.
Qed.

Lemma load64_range m a : 0 <= load64 m a < 2 ^ 64.
Proof.
  unfold load64.
  pose proof (le_combine_bound (load_bytes m a 8)) as B.
  rewrite length_load_bytes in B. exact B.
Qed.

Lemma store64_load64 m a x : store64 m a (load64 m a) x = m x.
Proof.
  unfold store64, load64.
  rewrite <- (length_load_bytes 8 m a) at 1.
  rewrite split_le_combine. apply store_load_same.
Qed.

Lemma le_split_8_wrap64 v : le_split 8 (wrap64 v) = le_split 8 v.
Proof. unfold wrap64. symmetry. apply (le_split_mod v 8). Qed.

Lemma load64_store64_other m a v b :
  0 <= a -> a + 8 <= 2 ^ 64 -> 0 <= b -> b + 8 <= 2 ^ 64 ->
  a + 8 <= b \/ b + 8 <= a ->
  load64 (store64 m a v) b = load64 m b.
Proof.
  intros Ha Ha' Hb Hb' Hd. unfold load64. f_equal.
  apply load_bytes_ext. intros x Hx. apply store64_frame.
  rewrite in_footprint_interval in * by lia. lia.
Qed.

Lemma load_bytes_eq_pointwise n m m' a x :
  load_bytes m' a n = load_bytes m a n ->
  in_footprint a n x -> m' x = m x.
Proof.
  intros E (i & Hi & ->).
  replace i with (Z.of_nat (Z.to_nat i)) by lia.
  rewrite <- (load_bytes_nth n m' a (Z.to_nat i) Byte.x00) by lia.
  rewrite <- (load_bytes_nth n m a (Z.to_nat i) Byte.x00) by lia.
  rewrite E. reflexivity.
Qed.

(** ** [invoke] *)

Section InvokeProofs.

Import emulator.

Variable L : layout.
Variable this : Z.
Variable native : Z -> machine -> option machine.
Variable return_address : Z.

Hypothesis HL : layout_ok L.
Hypothesis Hplaced : placed L this.

Local Abbreviation operand := (operand L).
Local Abbreviation xchg := (xchg L).
Local Abbreviation exchange_gprs := (exchange_gprs L).
Local Abbreviation exchange_flags := (exchange_flags L).
Local Abbreviation before_call := (before_call L this).
Local Abbreviation after_call := (after_call L).
Local Abbreviation at_entry := (at_entry L this return_address).
Local Abbreviation invoke := (invoke L this native return_address).

Local Abbreviation addr := (addr L this).
Local Abbreviation same_field := (same_field L this).
Local Abbreviation holds := (holds L this).

Lemma sd_eq : sd L = reserved_stack_size L.
Proof.
  destruct HL as (Hsd & Hin & _). pose proof (Hin F_rsp).
  unfold sd. apply Z.mod_small. lia.
Qed.

Lemma addr_range f :
  0 <= this /\ this + sd L <= addr f /\ addr f + 8 <= 2 ^ 64 /\ 24 <= sd L.
Proof.
  destruct HL as (Hsd & Hin & _). destruct Hplaced as (H0 & H1).
  pose proof (Hin f). rewrite sd_eq. unfold emulator.addr. lia.
Qed.

Lemma in_field f x : in_footprint (addr f) 8 x <-> addr f <= x < addr f + 8.
Proof.
  pose proof (addr_range f). rewrite in_footprint_interval by lia. lia.
Qed.

Lemma fields_disjoint f g :
  f <> g -> addr f + 8 <= addr g \/ addr g + 8 <= addr f.
Proof.
  intros H. destruct HL as (_ & _ & Hd). pose proof (Hd f g H).
  unfold addr. lia.
Qed.

Lemma operand_field f s :
  rsp s = this + sd L -> operand (offset_of L f) s = addr f.
Proof.
  intros E. unfold emulator.operand. rewrite E.
  pose proof (addr_range f). unfold emulator.addr in *.
  rewrite wrap64_small by lia. lia.
Qed.

Lemma same_field_refl f m : same_field f m m.
Proof. intros x _. reflexivity. Qed.

Lemma same_field_trans f m1 m2 m3 :
  same_field f m1 m2 -> same_field f m2 m3 -> same_field f m1 m3.
Proof. intros H1 H2 x Hx. rewrite H2, H1 by exact Hx. reflexivity. Qed.

Lemma same_field_load f m m' :
  same_field f m m' ->
  load_bytes m' (addr f) 8 = load_bytes m (addr f) 8.
Proof. intros H. apply load_bytes_ext. exact H. Qed.

Lemma same_field_load64 f m m' :
  same_field f m m' -> load64 m' (addr f) = load64 m (addr f).
Proof. intros H. unfold load64. rewrite (same_field_load f m m' H). reflexivity. Qed.

Lemma same_field_holds f m m' v :
  same_field f m m' -> holds m f v -> holds m' f v.
Proof. unfold emulator.holds. intros H E. rewrite (same_field_load f m m' H). exact E. Qed.

Lemma holds_load64 m f v : holds m f v -> load64 m (addr f) = wrap64 v.
Proof. unfold emulator.holds, load64. intros ->. apply le_combine_split. Qed.

Lemma holds_store64 m f v : holds (store64 m (addr f) v) f v.
Proof. apply load_bytes_store64_same. Qed.

(** A store to another member. *)
Lemma same_field_store_other f g m v :
  f <> g -> same_field f m (store64 m (addr g) v).
Proof.
  intros H x Hx. apply store64_frame. rewrite in_field in *.
  pose proof (fields_disjoint f g H). lia.
Qed.

(** A store below the members, in the reserved stack block. *)
Lemma same_field_store_stack f m a v :
  0 <= a -> a + 8 <= this + sd L -> same_field f m (store64 m a v).
Proof.
  intros H0 H1 x Hx. apply store64_frame. rewrite in_field in Hx.
  pose proof (addr_range f). rewrite in_footprint_interval by lia. lia.
Qed.

(** Writing a member back with what it holds changes nothing at all. *)
Lemma holds_store64_id m f v x :
  holds m f v -> store64 m (addr f) v x = m x.
Proof.
  intros H. unfold emulator.holds in H.
  rewrite <- (store_load_same 8 m (addr f) x) at 1.
  unfold store64. rewrite H. reflexivity.
Qed.

(** *** The register exchange *)

Lemma exchange_gprs_unfold s : exchange_gprs s = xchg_all L all_gprs s.
Proof. reflexivity. Qed.

Lemma all_gprs_complete r : In r all_gprs.
Proof. destruct r; cbn; tauto. Qed.

Lemma all_gprs_nodup : NoDup all_gprs.
Proof.
  unfold all_gprs.
  repeat (constructor; [cbn; intuition discriminate |]). constructor.
Qed.

Lemma gpr_eqb_refl r : gpr_eqb r r = true.
Proof. destruct r; reflexivity. Qed.

Lemma gpr_eqb_neq r r' : r <> r' -> gpr_eqb r r' = false.
Proof. destruct r, r'; cbn; congruence. Qed.

Lemma xchg_all_spec l :
  NoDup l -> forall s, rsp s = this + sd L ->
  rsp (xchg_all L l s) = rsp s /\
  rflags (xchg_all L l s) = rflags s /\
  (forall r, In r l ->
     regs (xchg_all L l s) r = load64 (mem s) (addr (F_gpr r))) /\
  (forall r, ~ In r l -> regs (xchg_all L l s) r = regs s r) /\
  (forall r, In r l -> holds (mem (xchg_all L l s)) (F_gpr r) (regs s r)) /\
  (forall x, (forall r, In r l -> ~ in_footprint (addr (F_gpr r)) 8 x) ->
             mem (xchg_all L l s) x = mem s x).
Proof.
  induction 1 as [| r0 l Hr0 Hnd IH]; intros s Hsp.
  - cbn. repeat split; try reflexivity; intros; tauto.
  - change (xchg_all L (r0 :: l) s)
      with (xchg_all L l (xchg r0 (gpr_slot L r0) s)).
    set (s1 := xchg r0 (gpr_slot L r0) s).
    assert (Ea : operand (gpr_slot L r0) s = addr (F_gpr r0))
      by (apply (operand_field (F_gpr r0)); exact Hsp).
    assert (Hsp1 : rsp s1 = this + sd L) by exact Hsp.
    assert (Hm1 : mem s1 = store64 (mem s) (addr (F_gpr r0)) (regs s r0)).
    { unfold s1, emulator.xchg. cbn [mem with_reg with_mem]. rewrite Ea.
      reflexivity. }
    assert (Hr1 : forall r, regs s1 r =
                    if gpr_eqb r r0 then load64 (mem s) (addr (F_gpr r0))
                    else regs s r).
    { intros r. unfold s1, emulator.xchg. cbn [regs with_reg with_mem].
      rewrite Ea. reflexivity. }
    destruct (IH s1 Hsp1) as (I1 & I2 & I3 & I4 & I5 & I6).
    split; [rewrite I1; reflexivity |]. split; [rewrite I2; reflexivity |].
    split; [| split; [| split]].
    + intros r [<- | Hr].
      * rewrite I4 by exact Hr0. rewrite Hr1, gpr_eqb_refl. reflexivity.
      * rewrite I3 by exact Hr. rewrite Hm1.
        apply same_field_load64, same_field_store_other.
        intros E. injection E as ->. contradiction.
    + intros r Hr. cbn [In] in Hr.
      rewrite I4 by tauto. rewrite Hr1, gpr_eqb_neq; [reflexivity |].
      intros ->. tauto.
    + intros r [<- | Hr].
      * apply (same_field_holds (F_gpr r0) (mem s1)).
        -- intros x Hx. apply I6. intros r Hr Hx'.
           rewrite in_field in Hx, Hx'.
           assert (Hne : F_gpr r0 <> F_gpr r)
             by (intros E; injection E as ->; contradiction).
           pose proof (fields_disjoint _ _ Hne). lia.
        -- rewrite Hm1. apply holds_store64.
      * pose proof (I5 r Hr) as H5. rewrite Hr1, gpr_eqb_neq in H5;
          [exact H5 | intros ->; contradiction].
    + intros x Hx. rewrite I6 by (intros r Hr; apply Hx; right; exact Hr).
      rewrite Hm1. apply store64_frame. apply Hx. left. reflexivity.
Qed.

Lemma exchange_gprs_spec s :
  rsp s = this + sd L ->
  rsp (exchange_gprs s) = this + sd L /\
  rflags (exchange_gprs s) = rflags s /\
  (forall r, regs (exchange_gprs s) r = load64 (mem s) (addr (F_gpr r))) /\
  (forall r, holds (mem (exchange_gprs s)) (F_gpr r) (regs s r)) /\
  (forall f, (forall r, f <> F_gpr r) ->
             same_field f (mem s) (mem (exchange_gprs s))).
Proof.
  intros Hsp. rewrite exchange_gprs_unfold.
  destruct (xchg_all_spec all_gprs all_gprs_nodup s Hsp)
    as (I1 & I2 & I3 & I4 & I5 & I6).
  split; [congruence |]. split; [exact I2 |].
  split; [intros r; apply I3, all_gprs_complete |].
  split; [intros r; apply I5, all_gprs_complete |].
  intros f Hf x Hx. apply I6. intros r _ Hx'.
  rewrite in_field in Hx, Hx'.
  pose proof (fields_disjoint f (F_gpr r) (Hf r)). lia.
Qed.

(** *** The flags exchange *)

(** Each instruction, on a state whose stack pointer is known. *)

Lemma push_facts v s a :
  rsp s = a -> 8 <= a < 2 ^ 64 ->
  rsp (push v s) = a - 8 /\
  mem (push v s) = store64 (mem s) (a - 8) v /\
  regs (push v s) = regs s /\
  rflags (push v s) = rflags s.
Proof.
  intros E Ha. unfold push. cbn [rsp mem regs rflags with_rsp with_mem].
  rewrite E, wrap64_small by lia. repeat split.
Qed.

Lemma popfq_facts s a :
  rsp s = a -> 0 <= a -> a + 8 < 2 ^ 64 ->
  rsp (popfq s) = a + 8 /\
  mem (popfq s) = mem s /\
  regs (popfq s) = regs s /\
  rflags (popfq s) = flags_after_popfq (rflags s) (load64 (mem s) a).
Proof.
  intros E H0 H1. unfold popfq. cbn [rsp mem regs rflags with_rsp with_rflags].
  rewrite E, wrap64_small by lia. repeat split.
Qed.

Lemma pop_mem_facts f s a :
  rsp s = a -> 0 <= a -> a + 8 < 2 ^ 64 ->
  rsp (pop_mem L f s) = a + 8 /\
  mem (pop_mem L f s) =
    store64 (mem s) (wrap64 (a + 8 - sd L + f)) (load64 (mem s) a) /\
  regs (pop_mem L f s) = regs s /\
  rflags (pop_mem L f s) = rflags s.
Proof.
  intros E H0 H1. unfold pop_mem, emulator.operand.
  cbn [rsp mem regs rflags with_rsp with_mem].
  rewrite E, wrap64_small by lia. repeat split.
Qed.

Lemma exchange_flags_unfold s :
  exchange_flags s =
  pop_mem L (v_rflags L) (popfq (push_mem L (v_rflags L) (pushfq s))).
Proof. reflexivity. Qed.

Lemma exchange_flags_spec s :
  rsp s = this + sd L ->
  rsp (exchange_flags s) = this + sd L /\
  regs (exchange_flags s) = regs s /\
  (forall f, f <> F_rflags ->
             same_field f (mem s) (mem (exchange_flags s))) /\
  holds (mem (exchange_flags s)) F_rflags (pushfq_image (rflags s)) /\
  rflags (exchange_flags s) =
    flags_after_popfq (rflags s)
      (load64 (store64 (mem s) (this + sd L - 8) (pushfq_image (rflags s)))
              (addr F_rflags - 8)).
Proof.
  intros Hsp. pose proof (addr_range F_rflags) as (H0 & H1 & H2 & H3).
  rewrite exchange_flags_unfold.
  (* pushfq *)
  destruct (push_facts (pushfq_image (rflags s)) s _ Hsp ltac:(lia))
    as (R1 & M1 & G1 & F1).
  change (push (pushfq_image (rflags s)) s) with (pushfq s) in R1, M1, G1, F1.
  generalize dependent (pushfq s). intros s1 R1 M1 G1 F1.
  (* push [v_rflags] *)
  assert (O1 : operand (v_rflags L) s1 = addr F_rflags - 8).
  { unfold emulator.operand. rewrite R1. unfold emulator.addr in *.
    cbn [offset_of] in *. rewrite wrap64_small by lia. lia. }
  destruct (push_facts (load64 (mem s1) (operand (v_rflags L) s1)) s1 _ R1
              ltac:(lia)) as (R2 & M2 & G2 & F2).
  change (push (load64 (mem s1) (operand (v_rflags L) s1)) s1)
    with (push_mem L (v_rflags L) s1) in R2, M2, G2, F2.
  rewrite O1 in M2.
  generalize dependent (push_mem L (v_rflags L) s1). intros s2 R2 M2 G2 F2.
  (* popfq *)
  destruct (popfq_facts s2 _ R2 ltac:(lia) ltac:(lia)) as (R3 & M3 & G3 & F3).
  generalize dependent (popfq s2). intros s3 R3 M3 G3 F3.
  (* pop [v_rflags] *)
  destruct (pop_mem_facts (v_rflags L) s3 _ R3 ltac:(lia) ltac:(lia))
    as (R4 & M4 & G4 & F4).
  generalize dependent (pop_mem L (v_rflags L) s3). intros s4 R4 M4 G4 F4.
  replace (this + sd L - 8 - 8 + 8 + 8 - sd L + v_rflags L)
    with (addr F_rflags) in M4 by (unfold emulator.addr; cbn [offset_of]; lia).
  rewrite (wrap64_small (addr F_rflags)) in M4 by lia.
  assert (V3 : load64 (mem s2) (this + sd L - 8 - 8) =
               load64 (mem s1) (addr F_rflags - 8)).
  { rewrite M2, load64_store64_same. apply wrap64_small, load64_range. }
  assert (V4 : le_split 8 (load64 (mem s3) (this + sd L - 8 - 8 + 8)) =
               le_split 8 (pushfq_image (rflags s))).
  { rewrite M3, M2, load64_store64_other by lia.
    replace (this + sd L - 8 - 8 + 8) with (this + sd L - 8) by lia.
    rewrite M1, load64_store64_same. apply le_split_8_wrap64. }
  split; [rewrite R4; lia |].
  split; [rewrite G4, G3, G2, G1; reflexivity |]. split; [| split].
  - intros f Hf. rewrite M4, M3, M2, M1.
    eapply same_field_trans; [| apply same_field_store_other; exact Hf].
    eapply same_field_trans; apply same_field_store_stack; lia.
  - rewrite M4. unfold store64. rewrite V4. apply holds_store64.
  - rewrite F4, F3, F2, F1, V3, M1. reflexivity.
Qed.

(** *** The two halves of [invoke] *)

Lemma before_call_spec rp s :
  rsp (before_call rp s) = this + sd L /\
  (forall r, regs (before_call rp s) r = load64 (mem s) (addr (F_gpr r))) /\
  holds (mem (before_call rp s)) F_rip rp /\
  holds (mem (before_call rp s)) F_rsp (rsp s) /\
  (forall r, holds (mem (before_call rp s)) (F_gpr r)
               (if gpr_eqb r RAX then rsp s else regs s r)).
Proof.
  pose proof (addr_range F_rsp) as (H0 & H1 & H2 & H3).
  unfold emulator.before_call.
  set (m0 := store64 (mem s) (this + __rip L) rp).
  set (sC := add_rsp (sd L) (mov_rsp this (mov_reg_rsp RAX (with_mem m0 s)))).
  assert (RC : rsp sC = this + sd L).
  { unfold sC, add_rsp, mov_rsp, mov_reg_rsp.
    cbn [rsp with_rsp with_rflags with_reg with_mem].
    apply wrap64_small. lia. }
  assert (MC : mem sC = m0) by reflexivity.
  assert (GC : forall r, regs sC r = if gpr_eqb r RAX then rsp s else regs s r)
    by reflexivity.
  set (sD := mov_mem_reg L (__rsp L) RAX sC).
  assert (RD : rsp sD = this + sd L) by exact RC.
  assert (MD : mem sD = store64 m0 (addr F_rsp) (rsp s)).
  { unfold sD, mov_mem_reg. cbn [mem with_mem].
    pose proof (operand_field F_rsp sC RC) as O. cbn [offset_of] in O.
    rewrite O, GC. reflexivity. }
  assert (GD : forall r, regs sD r = if gpr_eqb r RAX then rsp s else regs s r)
    by exact GC.
  destruct (exchange_gprs_spec sD RD) as (RE & _ & GE & HE & SE).
  set (sE := exchange_gprs sD) in *.
  destruct (exchange_flags_spec sE RE) as (RF' & GF & SF & _ & _).
  set (sF := exchange_flags sE) in *.
  assert (Hrip : holds (mem sD) F_rip rp).
  { rewrite MD. eapply same_field_holds;
      [apply same_field_store_other; discriminate |].
    apply (holds_store64 (mem s) F_rip). }
  assert (Hrsp : holds (mem sD) F_rsp (rsp s))
    by (rewrite MD; apply holds_store64).
  split; [exact RF' |]. split; [| split; [| split]].
  - intros r. rewrite GF, GE, MD. unfold m0.
    change (this + __rip L) with (addr F_rip).
    rewrite !same_field_load64 with (m := mem s); [reflexivity | ].
    eapply same_field_trans; apply same_field_store_other; discriminate.
  - eapply same_field_holds; [apply SF; discriminate |].
    eapply same_field_holds; [apply SE; discriminate |]. exact Hrip.
  - eapply same_field_holds; [apply SF; discriminate |].
    eapply same_field_holds; [apply SE; discriminate |]. exact Hrsp.
  - intros r. eapply same_field_holds; [apply SF; discriminate |].
    rewrite <- GD. apply HE.
Qed.

Lemma at_entry_unfold rp s :
  at_entry rp s = push return_address (before_call rp s).
Proof. reflexivity. Qed.

Lemma at_entry_spec rp s :
  rsp (at_entry rp s) = this + sd L - 8 /\
  wrap64 (rsp (at_entry rp s) + 8) = this + sd L /\
  regs (at_entry rp s) = regs (before_call rp s) /\
  (forall f, same_field f (mem (before_call rp s)) (mem (at_entry rp s))).
Proof.
  pose proof (addr_range F_rsp) as (H0 & H1 & H2 & H3).
  destruct (before_call_spec rp s) as (R & _).
  rewrite at_entry_unfold.
  destruct (push_facts return_address (before_call rp s) _ R ltac:(lia))
    as (R1 & M1 & G1 & _).
  split; [exact R1 |]. split; [rewrite R1, wrap64_small; lia |].
  split; [exact G1 |].
  intros f. rewrite M1. apply same_field_store_stack; lia.
Qed.

Lemma invoke_eq rp s :
  0 <= rp < 2 ^ 64 ->
  invoke rp s =
  if single_step (rflags (before_call rp s)) then None
  else
    match native rp (at_entry rp s) with
    | Some s2 =>
        if single_step (rflags (exchange_flags s2)) then None
        else Some (after_call s2)
    | None => None
    end.
Proof.
  intros Hrp. unfold emulator.invoke, call_mem. cbv zeta.
  destruct (before_call_spec rp s) as (R & _ & Hrip & _).
  pose proof (operand_field F_rip _ R) as O. cbn [offset_of] in O.
  rewrite O, (holds_load64 _ _ _ Hrip).
  rewrite wrap64_small by exact Hrp. reflexivity.
Qed.

Lemma invoke_returns rp s s2 :
  0 <= rp < 2 ^ 64 ->
  single_step (rflags (before_call rp s)) = false ->
  native rp (at_entry rp s) = Some s2 ->
  single_step (rflags (exchange_flags s2)) = false ->
  invoke rp s = Some (after_call s2).
Proof.
  intros Hrp H1 Hn H2. rewrite invoke_eq by exact Hrp.
  rewrite H1, Hn, H2. reflexivity.
Qed.

Lemma invoke_some_inv rp s s' :
  0 <= rp < 2 ^ 64 ->
  invoke rp s = Some s' ->
  single_step (rflags (before_call rp s)) = false /\
  exists s2,
    native rp (at_entry rp s) = Some s2 /\
    single_step (rflags (exchange_flags s2)) = false /\
    s' = after_call s2.
Proof.
  intros Hrp. rewrite invoke_eq by exact Hrp.
  destruct (single_step (rflags (before_call rp s))); [discriminate |].
  destruct (native rp (at_entry rp s)) as [s2 |]; [| discriminate].
  destruct (single_step (rflags (exchange_flags s2))) eqn:E2; [discriminate |].
  intros E. injection E as <-. split; [reflexivity |].
  exists s2. repeat split. exact E2.
Qed.

Lemma after_call_unfold s2 :
  after_call s2 =
  mov_rsp_mem L (__rsp L) (exchange_gprs (exchange_flags s2)).
Proof. reflexivity. Qed.

Lemma mov_rsp_mem_facts f s :
  rsp (mov_rsp_mem L f s) = load64 (mem s) (operand f s) /\
  mem (mov_rsp_mem L f s) = mem s /\
  regs (mov_rsp_mem L f s) = regs s.
Proof. repeat split. Qed.

Lemma after_call_spec s2 :
  rsp s2 = this + sd L ->
  (forall r, regs (after_call s2) r = load64 (mem s2) (addr (F_gpr r))) /\
  (forall r, holds (mem (after_call s2)) (F_gpr r) (regs s2 r)) /\
  rsp (after_call s2) = load64 (mem s2) (addr F_rsp) /\
  holds (mem (after_call s2)) F_rflags (pushfq_image (rflags s2)).
Proof.
  intros R. rewrite after_call_unfold.
  destruct (exchange_flags_spec s2 R) as (RF' & GF & SF & HF & _).
  generalize dependent (exchange_flags s2). intros sF RF' GF SF HF.
  destruct (exchange_gprs_spec sF RF') as (RE & _ & GE & HE & SE).
  generalize dependent (exchange_gprs sF). intros sE RE GE HE SE.
  destruct (mov_rsp_mem_facts (__rsp L) sE) as (R5 & M5 & G5).
  pose proof (operand_field F_rsp sE RE) as O. cbn [offset_of] in O.
  rewrite O in R5.
  generalize dependent (mov_rsp_mem L (__rsp L) sE). intros s5 R5 M5 G5.
  split; [| split; [| split]].
  - intros r. rewrite G5, GE. apply same_field_load64, SF. discriminate.
  - intros r. rewrite M5, <- GF. apply HE.
  - rewrite R5.
    rewrite (same_field_load64 F_rsp (mem sF)) by (apply SE; discriminate).
    apply same_field_load64, SF. discriminate.
  - rewrite M5. eapply same_field_holds; [apply SE; discriminate | exact HF].
Qed.

Lemma ret_only_facts s :
  rsp (ret_only s) = wrap64 (rsp s + 8) /\
  regs (ret_only s) = regs s /\
  mem (ret_only s) = mem s.
Proof. repeat split. Qed.


(** *** Full registers through [set] and [get] *)

Variable resolve_mapping : x86_reg -> x86_reg * Z * Z.

Local Abbreviation set := (set L resolve_mapping this).
Local Abbreviation get := (get L resolve_mapping this).

(** The resolver maps the name of a full register to itself. *)
Hypothesis Hfull : forall r, resolve_mapping (reg64 r) = (reg64 r, 0, 8).

Lemma resolve_reg64 r :
  resolve L resolve_mapping (reg64 r) = Ok (gpr_slot L r, 8).
Proof.
  unfold resolve. rewrite Hfull, base_of_reg64.
  destruct HL as (Hsd & Hin & _). pose proof (Hin (F_gpr r)) as Hr.
  cbn [offset_of] in Hr.
  rewrite to_int32_small by lia. rewrite Z.add_0_r. reflexivity.
Qed.


Lemma get_reg64 r m :
  get (reg64 r) m = Ok (load64 m (addr (F_gpr r)), m).
Proof. rewrite (get_eq _ _ _ _ _ _ _ (resolve_reg64 r)) by lia. reflexivity. Qed.

End InvokeProofs.

(** ** More on [set] and [get] *)

Lemma in_footprint_dec n : forall a x,
  in_footprint a n x \/ ~ in_footprint a n x.
Proof.
  induction n as [| n IH]; intros a x.
  - right. intros (i & Hi & _). lia.
  - rewrite in_footprint_S.
    destruct (Z.eq_dec x (wrap64 a)) as [E | E]; [tauto |].
    destruct (IH (a + 1) x); tauto.
Qed.

(** A second [memcpy] of the same length to the same place hides the
    first. *)
Lemma store_bytes_overwrite m a bs1 bs2 x :
  length bs1 = length bs2 -> Z.of_nat (length bs2) <= 2 ^ 64 ->
  store_bytes (store_bytes m a bs1) a bs2 x = store_bytes m a bs2 x.
Proof.
  intros Hlen Hn.
  destruct (in_footprint_dec (length bs2) a x) as [(i & Hi & ->) | Hout].
  - replace i with (Z.of_nat (Z.to_nat i)) by lia.
    rewrite !(store_bytes_nth bs2 _ a (Z.to_nat i) Byte.x00) by lia.
    reflexivity.
  - rewrite !store_bytes_frame; try reflexivity; try exact Hout.
    rewrite Hlen. exact Hout.
Qed.

Section AccessorExtras.

Import emulator.

Variable L : layout.
Variable resolve_mapping : x86_reg -> x86_reg * Z * Z.
Variable this : Z.

Local Abbreviation resolve := (resolve L resolve_mapping).
Local Abbreviation set := (set L resolve_mapping this).
Local Abbreviation get := (get L resolve_mapping this).
Local Abbreviation supported := (supported L resolve_mapping).
Local Abbreviation width_of := (width_of resolve_mapping).
Local Abbreviation offset_in_base := (offset_in_base resolve_mapping).
Local Abbreviation base_reg_of := (base_reg_of resolve_mapping).

(** X5. Two [set] on the same supported register: the memory is the one a
    single [set] of the second value gives. *)
Theorem set_twice_is_last_set (reg : x86_reg) (v1 v2 : Z) (m : memory) :
  supported reg = true ->
  exists m1 m2,
    (set reg v1 ;;; set reg v2) m = Ok (tt, m1) /\
    set reg v2 m = Ok (tt, m2) /\
    forall x, m1 x = m2 x.
Proof.
  intros H.
  destruct (supported_inv L resolve_mapping reg H)
    as (base & _ & Ho & Hw & How & E).
  set (a := this + to_int32 (base + offset_in_base reg)).
  set (n := Z.to_nat (width_of reg)).
  exists (store_bytes (store_bytes m a (le_split n v1)) a (le_split n v2)),
         (store_bytes m a (le_split n v2)).
  split; [| split].
  - unfold bind. rewrite (set_eq L resolve_mapping this reg v1 m _ _ E) by lia.
    apply (set_eq L resolve_mapping this reg v2 _ _ _ E). lia.
  - apply (set_eq L resolve_mapping this reg v2 m _ _ E). lia.
  - intros x. apply store_bytes_overwrite; rewrite !length_le_split;
      [reflexivity | unfold n; lia].
Qed.

(** X6. A [set] on one register leaves what [get] returns for every
    register of another base register unchanged. *)
Theorem set_keeps_other_bases (r1 r2 : x86_reg) (v : Z) (m : memory) :
  layout_ok L -> placed L this ->
  supported r1 = true -> supported r2 = true ->
  base_reg_of r1 <> base_reg_of r2 ->
  exists m' w,
    set r1 v m = Ok (tt, m') /\
    get r2 m = Ok (w, m) /\
    get r2 m' = Ok (w, m').
Proof.
  intros HL Hp H1 H2 Hne. pose proof Hp as (Hthis & Hend).
  destruct (supported_inv_ok L resolve_mapping r1 HL H1)
    as (g1 & Eb1 & Ho1 & Hw1 & How1 & E1).
  destruct (supported_inv_ok L resolve_mapping r2 HL H2)
    as (g2 & Eb2 & Ho2 & Hw2 & How2 & E2).
  assert (Hg : F_gpr g2 <> F_gpr g1) by (intros E; injection E as ->; congruence).
  pose proof (fields_disjoint L this HL _ _ Hg) as Hd.
  pose proof (addr_range L this HL Hp (F_gpr g1)) as A1.
  pose proof (addr_range L this HL Hp (F_gpr g2)) as A2.
  unfold addr in *. cbn [offset_of] in *.
  eexists. eexists. split; [| split].
  - apply (set_eq L resolve_mapping this r1 v m _ _ E1). lia.
  - apply (get_eq L resolve_mapping this r2 m _ _ E2). lia.
  - rewrite (get_eq L resolve_mapping this r2 _ _ _ E2) by lia.
    f_equal. f_equal. f_equal.
    apply load_bytes_ext. intros x Hx. apply store_bytes_frame.
    rewrite length_le_split.
    rewrite in_footprint_interval in * by lia. lia.
Qed.

(** X7. Reading an alias that lies inside a wider alias of the same base
    register, right after [set] on the wider one, returns the bytes of the
    written value at the position of the narrow alias. *)
Theorem get_inner_alias_after_set (lo full : x86_reg) (V : Z) (m : memory) :
  layout_ok L -> placed L this ->
  supported lo = true -> supported full = true ->
  base_reg_of lo = base_reg_of full ->
  offset_in_base full <= offset_in_base lo ->
  offset_in_base lo + width_of lo <= offset_in_base full + width_of full ->
  exists m',
    (set full V ;;; get lo) m =
    Ok (Z.shiftr V (8 * (offset_in_base lo - offset_in_base full))
          mod 2 ^ (8 * width_of lo), m').
Proof.
  intros HL Hp Hlo Hfull Hbase Hlow Hhigh. pose proof Hp as (Hthis & Hend).
  destruct (supported_inv_ok L resolve_mapping lo HL Hlo)
    as (r' & Er' & Hol & Hwl & Howl & El).
  destruct (supported_inv_ok L resolve_mapping full HL Hfull)
    as (r & Er & Hof & Hwf & Howf & Ef).
  assert (r' = r) by (apply reg64_inj; congruence). subst r'.
  pose proof (addr_range L this HL Hp (F_gpr r)) as A.
  unfold addr in A. cbn [offset_of] in A.
  set (S := gpr_slot L r) in *.
  set (o_l := offset_in_base lo) in *. set (w_l := width_of lo) in *.
  set (o_f := offset_in_base full) in *. set (w_f := width_of full) in *.
  set (m1 := store_bytes m (this + (S + o_f)) (le_split (Z.to_nat w_f) V)).
  exists m1. unfold bind.
  rewrite (set_eq L resolve_mapping this full V m _ _ Ef) by lia. fold m1.
  rewrite (get_eq L resolve_mapping this lo m1 _ _ El) by lia.
  f_equal. f_equal.
  replace (8 * w_l) with (Z.of_nat (Z.to_nat w_l) * 8) by lia.
  rewrite <- le_combine_split. f_equal.
  apply (nth_ext _ _ Byte.x00 Byte.x00).
  - rewrite length_load_bytes, length_le_split. reflexivity.
  - rewrite length_load_bytes. intros i Hi.
    rewrite load_bytes_nth by exact Hi.
    replace (this + (S + o_l) + Z.of_nat i)
      with (this + (S + o_f) + Z.of_nat (Z.to_nat (o_l - o_f) + i)) by lia.
    unfold m1. rewrite (store_bytes_nth _ _ _ _ Byte.x00)
      by (rewrite length_le_split; lia).
    apply byte.unsigned_inj. rewrite !byte_at_le_split by lia.
    unfold byte_at. rewrite Z.shiftr_shiftr by lia.
    f_equal. f_equal. lia.
Qed.

(** X8. [set] on a supported register writes inside the 8-byte member of
    its base register only: the saved stack pointer, the instruction
    pointer, the flags, the members of the other registers and every byte
    outside the members keep their value. *)
Theorem set_stays_in_its_member (reg : x86_reg) (v : Z) (m : memory) :
  layout_ok L -> placed L this ->
  supported reg = true ->
  exists r m',
    base_reg_of reg = reg64 r /\
    set reg v m = Ok (tt, m') /\
    (forall x, ~ (addr L this (F_gpr r) <= x < addr L this (F_gpr r) + 8) ->
               m' x = m x) /\
    (forall f, f <> F_gpr r -> same_field L this f m m').
Proof.
  intros HL Hp H. pose proof Hp as (Hthis & Hend).
  destruct (supported_inv_ok L resolve_mapping reg HL H)
    as (r & Er & Ho & Hw & How & E).
  pose proof (addr_range L this HL Hp (F_gpr r)) as A.
  assert (Hframe : forall x,
            ~ (addr L this (F_gpr r) <= x < addr L this (F_gpr r) + 8) ->
            store_bytes m (this + (gpr_slot L r + offset_in_base reg))
              (le_split (Z.to_nat (width_of reg)) v) x = m x).
  { intros x Hx. apply store_bytes_frame. rewrite length_le_split.
    unfold addr in *. cbn [offset_of] in *.
    rewrite in_footprint_interval by lia. lia. }
  exists r. eexists. split; [exact Er |]. split; [| split].
  - apply (set_eq L resolve_mapping this reg v m _ _ E). lia.
  - exact Hframe.
  - intros f Hf x Hx. apply Hframe.
    rewrite (in_field L this HL Hp) in Hx.
    pose proof (fields_disjoint L this HL f (F_gpr r) Hf). lia.
Qed.

(** X14. Whatever the memory holds, [get] on a supported register returns
    a value below [2 ^ (8 * width)]: the bytes of the result above the
    width of the register are zero. *)
Theorem get_is_zero_extended (reg : x86_reg) (m : memory) :
  supported reg = true ->
  exists v, get reg m = Ok (v, m) /\ 0 <= v < 2 ^ (8 * width_of reg).
Proof.
  intros H.
  destruct (supported_inv L resolve_mapping reg H)
    as (base & _ & Ho & Hw & How & E).
  eexists. split; [apply (get_eq L resolve_mapping this reg m _ _ E); lia |].
  match goal with |- _ <= le_combine ?bs < _ =>
    pose proof (le_combine_bound bs) as B end.
  rewrite length_load_bytes in B.
  replace (8 * Z.of_nat (Z.to_nat (width_of reg))) with (8 * width_of reg)
    in B by lia.
  exact B.
Qed.

End AccessorExtras.

(** ** More on [invoke] *)

Section InvokeExtras.

Import emulator.

Variable L : layout.
Variable this : Z.
Variable native : Z -> machine -> option machine.
Variable return_address : Z.

Hypothesis HL : layout_ok L.
Hypothesis Hplaced : placed L this.

Local Abbreviation exchange_gprs := (exchange_gprs L).
Local Abbreviation exchange_flags := (exchange_flags L).
Local Abbreviation before_call := (before_call L this).
Local Abbreviation after_call := (after_call L).
Local Abbreviation at_entry := (at_entry L this return_address).
Local Abbreviation invoke := (invoke L this native return_address).
Local Abbreviation addr := (addr L this).
Local Abbreviation same_field := (same_field L this).
Local Abbreviation holds := (holds L this).

(** The state after the stack has been switched and the old stack pointer
    saved, before the exchanges. *)
Lemma before_call_unfold rp s :
  before_call rp s =
  exchange_flags (exchange_gprs
    (mov_mem_reg L (__rsp L) RAX
       (add_rsp (sd L)
          (mov_rsp this
             (mov_reg_rsp RAX
                (with_mem (store64 (mem s) (this + __rip L) rp) s)))))).
Proof. reflexivity. Qed.

Lemma staged_facts rp s :
  let sD := mov_mem_reg L (__rsp L) RAX
              (add_rsp (sd L)
                 (mov_rsp this
                    (mov_reg_rsp RAX
                       (with_mem (store64 (mem s) (this + __rip L) rp) s)))) in
  rsp sD = this + sd L /\
  rflags sD = flags_after_add (rflags s) this (sd L) /\
  (forall r, regs sD r = if gpr_eqb r RAX then rsp s else regs s r) /\
  mem sD = store64 (store64 (mem s) (addr F_rip) rp) (addr F_rsp) (rsp s).
Proof.
  pose proof (addr_range L this HL Hplaced F_rsp) as (H0 & H1 & H2 & H3).
  unfold mov_mem_reg, add_rsp, mov_rsp, mov_reg_rsp, emulator.operand.
  cbn [rsp rflags regs mem with_mem with_rsp with_rflags with_reg].
  unfold emulator.addr in *. cbn [offset_of] in *.
  rewrite (wrap64_small (this + sd L)) by lia.
  replace (this + sd L - sd L + __rsp L) with (this + __rsp L) by lia.
  rewrite (wrap64_small (this + __rsp L)) by lia.
  repeat split.
Qed.

(** Whether an address lies in one of the fifteen general-purpose
    members. *)
Lemma in_some_gpr_member x :
  (exists r, in_footprint (addr (F_gpr r)) 8 x) \/
  (forall r, ~ in_footprint (addr (F_gpr r)) 8 x).
Proof.
  assert (H : forall l : list gpr,
            (exists r, In r l /\ in_footprint (addr (F_gpr r)) 8 x) \/
            (forall r, In r l -> ~ in_footprint (addr (F_gpr r)) 8 x)).
  { induction l as [| r0 l IH].
    - right. intros r [].
    - destruct (in_footprint_dec 8 (addr (F_gpr r0)) x) as [Hin | Hout].
      + left. exists r0. split; [left; reflexivity | exact Hin].
      + destruct IH as [(r & Hr & Hin) | Hall].
        * left. exists r. split; [right; exact Hr | exact Hin].
        * right. intros r [<- | Hr]; [exact Hout | apply Hall; exact Hr]. }
  destruct (H all_gprs) as [(r & _ & Hin) | Hall].
  - left. exists r. exact Hin.
  - right. intros r. apply Hall. destruct r; cbn; tauto.
Qed.

Lemma all_gprs_nodup' : NoDup all_gprs.
Proof.
  unfold all_gprs.
  repeat (constructor; [cbn; intuition discriminate |]). constructor.
Qed.

Lemma exchange_gprs_frame s x :
  rsp s = this + sd L ->
  (forall r, ~ in_footprint (addr (F_gpr r)) 8 x) ->
  mem (exchange_gprs s) x = mem s x.
Proof.
  intros Hsp Hx. rewrite exchange_gprs_unfold.
  destruct (xchg_all_spec L this native HL Hplaced all_gprs all_gprs_nodup' s Hsp)
    as (_ & _ & _ & _ & _ & I6).
  apply I6. intros r _. apply Hx.
Qed.

(** The memory after the flags exchange, as three stores. *)
Lemma exchange_flags_mem s :
  rsp s = this + sd L ->
  exists v1 v2 v3,
    mem (exchange_flags s) =
    store64 (store64 (store64 (mem s) (this + sd L - 8) v1)
               (this + sd L - 16) v2) (addr F_rflags) v3.
Proof.
  intros Hsp.
  pose proof (addr_range L this HL Hplaced F_rflags) as (H0 & H1 & H2 & H3).
  rewrite exchange_flags_unfold.
  destruct (push_facts (pushfq_image (rflags s)) s _ Hsp ltac:(lia))
    as (R1 & M1 & _).
  change (push (pushfq_image (rflags s)) s) with (pushfq s) in R1, M1.
  generalize dependent (pushfq s). intros s1 R1 M1.
  destruct (push_facts (load64 (mem s1) (emulator.operand L (v_rflags L) s1))
              s1 _ R1 ltac:(lia)) as (R2 & M2 & _).
  change (push (load64 (mem s1) (emulator.operand L (v_rflags L) s1)) s1)
    with (push_mem L (v_rflags L) s1) in R2, M2.
  generalize dependent (push_mem L (v_rflags L) s1). intros s2 R2 M2.
  destruct (popfq_facts s2 _ R2 ltac:(lia) ltac:(lia)) as (R3 & M3 & _).
  generalize dependent (popfq s2). intros s3 R3 M3.
  destruct (pop_mem_facts L (v_rflags L) s3 _ R3 ltac:(lia) ltac:(lia))
    as (_ & M4 & _).
  replace (this + sd L - 8 - 8 + 8 + 8 - sd L + v_rflags L)
    with (addr F_rflags) in M4 by (unfold emulator.addr; cbn [offset_of]; lia).
  rewrite (wrap64_small (addr F_rflags)) in M4 by lia.
  rewrite M4, M3, M2, M1.
  replace (this + sd L - 8 - 8) with (this + sd L - 16) by lia.
  eexists. eexists. eexists. reflexivity.
Qed.

Lemma exchange_flags_frame s x :
  rsp s = this + sd L ->
  ~ in_footprint (addr F_rflags) 8 x ->
  ~ (this + sd L - 16 <= x < this + sd L) ->
  mem (exchange_flags s) x = mem s x.
Proof.
  intros Hsp Hf Hst.
  pose proof (addr_range L this HL Hplaced F_rflags) as (H0 & H1 & H2 & H3).
  destruct (exchange_flags_mem s Hsp) as (v1 & v2 & v3 & ->).
  rewrite !store64_frame; try reflexivity; try exact Hf;
    rewrite in_footprint_interval by lia; lia.
Qed.

(** *** TF *)

Lemma single_step_after_popfq f v :
  single_step (flags_after_popfq f v) = Z.testbit v 8.
Proof.
  unfold single_step, flags_after_popfq.
  rewrite Z.lor_spec, !Z.land_spec, Z.lnot_spec by lia.
  change (Z.testbit (Z.lor popfq_writable RF) 8) with true.
  change (Z.testbit popfq_writable 8) with true.
  cbn [negb]. rewrite andb_false_r, andb_true_r. reflexivity.
Qed.

Lemma testbit8_wrap64 v : Z.testbit (wrap64 v) 8 = Z.testbit v 8.
Proof. unfold wrap64. apply Z.mod_pow2_bits_low. lia. Qed.

(** With the member of [r0] right below [v_rflags], a flags exchange sets
    TF exactly when bit 8 is set in that member. *)
Lemma exchange_flags_single_step r0 s :
  gpr_slot L r0 + 8 = v_rflags L ->
  rsp s = this + sd L ->
  single_step (rflags (exchange_flags s)) =
  Z.testbit (load64 (mem s) (addr (F_gpr r0))) 8.
Proof.
  intros Hbelow Hsp.
  pose proof (addr_range L this HL Hplaced (F_gpr r0)) as (H0 & H1 & H2 & H3).
  destruct (exchange_flags_spec L this HL Hplaced s Hsp) as (_ & _ & _ & _ & FF).
  rewrite FF, single_step_after_popfq.
  replace (addr F_rflags - 8) with (addr (F_gpr r0))
    by (unfold emulator.addr; cbn [offset_of]; lia).
  rewrite load64_store64_other by lia. reflexivity.
Qed.

Lemma before_call_single_step r0 rp s :
  gpr_slot L r0 + 8 = v_rflags L ->
  single_step (rflags (before_call rp s)) = Z.testbit (exchanged_in s r0) 8.
Proof.
  intros Hbelow. rewrite before_call_unfold.
  destruct (staged_facts rp s) as (RD & _ & GD & _).
  cbv zeta in RD, GD.
  generalize dependent (mov_mem_reg L (__rsp L) RAX
       (add_rsp (sd L)
          (mov_rsp this
             (mov_reg_rsp RAX
                (with_mem (store64 (mem s) (this + __rip L) rp) s))))).
  intros sD RD GD.
  destruct (exchange_gprs_spec L this native HL Hplaced sD RD)
    as (RE & _ & _ & HE & _).
  rewrite (exchange_flags_single_step r0 _ Hbelow RE).
  rewrite (holds_load64 L this _ _ _ (HE r0)), testbit8_wrap64, GD.
  reflexivity.
Qed.

(** X9. The two register exchanges of [invoke] undo each other: run twice
    in a row (with 64-bit register values), the block of fifteen [xchg]
    leaves every register, the stack pointer, the flags and every byte of
    memory as they were. *)
Theorem exchange_gprs_twice (s : machine) :
  rsp s = this + sd L ->
  (forall r, 0 <= regs s r < 2 ^ 64) ->
  (forall r, regs (exchange_gprs (exchange_gprs s)) r = regs s r) /\
  rsp (exchange_gprs (exchange_gprs s)) = rsp s /\
  rflags (exchange_gprs (exchange_gprs s)) = rflags s /\
  (forall x, mem (exchange_gprs (exchange_gprs s)) x = mem s x).
Proof.
  intros Hsp Hregs.
  destruct (exchange_gprs_spec L this native HL Hplaced s Hsp)
    as (R1 & F1 & G1 & H1 & _).
  pose proof (exchange_gprs_frame s) as Fr1.
  specialize (fun x => Fr1 x Hsp).
  generalize dependent (exchange_gprs s). intros s1 R1 F1 G1 H1 Fr1.
  destruct (exchange_gprs_spec L this native HL Hplaced s1 R1)
    as (R2 & F2 & G2 & H2 & _).
  pose proof (fun x => exchange_gprs_frame s1 x R1) as Fr2.
  generalize dependent (exchange_gprs s1). intros s2 R2 F2 G2 H2 Fr2.
  split; [| split; [| split]].
  - intros r. rewrite G2, (holds_load64 L this _ _ _ (H1 r)).
    apply wrap64_small, Hregs.
  - congruence.
  - congruence.
  - intros x. destruct (in_some_gpr_member x) as [(r & Hin) | Hout].
    + apply (load_bytes_eq_pointwise 8 _ _ (addr (F_gpr r))); [| exact Hin].
      pose proof (H2 r) as E. unfold emulator.holds in E. rewrite E, G1.
      unfold load64.
      rewrite <- (length_load_bytes 8 (mem s) (addr (F_gpr r))) at 1.
      apply split_le_combine.
    + rewrite Fr2, Fr1 by exact Hout. reflexivity.
Qed.

(** X10. The flags the routine starts with are not those of the flags
    member.  [push [ rsp - sd ] emulator.v_rflags] runs after [pushfq] has
    lowered [rsp] by 8, so it reads the 8 bytes below [v_rflags]; when the
    member of the register [r] lies there, [popfq] gets the value that
    register had before [invoke] (the old stack pointer for [rax]). *)
Theorem entry_flags_come_from_member_below (r : gpr) (rp : Z) (s : machine) :
  gpr_slot L r + 8 = v_rflags L ->
  rflags (at_entry rp s) =
  flags_after_popfq (flags_after_add (rflags s) this (sd L))
    (wrap64 (if gpr_eqb r RAX then rsp s else regs s r)).
Proof.
  intros Hbelow.
  pose proof (addr_range L this HL Hplaced (F_gpr r)) as (H0 & H1 & H2 & H3).
  rewrite at_entry_unfold.
  destruct (before_call_spec L this native HL Hplaced rp s) as (Rb & _).
  destruct (push_facts return_address (before_call rp s) _ Rb ltac:(lia))
    as (_ & _ & _ & Fp).
  rewrite Fp, before_call_unfold. clear Rb Fp.
  destruct (staged_facts rp s) as (RD & FD & GD & _).
  cbv zeta in RD, FD, GD.
  generalize dependent (mov_mem_reg L (__rsp L) RAX
       (add_rsp (sd L)
          (mov_rsp this
             (mov_reg_rsp RAX
                (with_mem (store64 (mem s) (this + __rip L) rp) s))))).
  intros sD RD FD GD.
  destruct (exchange_gprs_spec L this native HL Hplaced sD RD)
    as (RE & FE & _ & HE & _).
  generalize dependent (exchange_gprs sD). intros sE RE FE HE.
  destruct (exchange_flags_spec L this HL Hplaced sE RE) as (_ & _ & _ & _ & FF).
  rewrite FF, FE, FD. f_equal.
  replace (addr F_rflags - 8) with (addr (F_gpr r))
    by (unfold emulator.addr; cbn [offset_of]; lia).
  rewrite load64_store64_other by lia.
  rewrite (holds_load64 L this _ _ _ (HE r)), GD. reflexivity.
Qed.

(** X11. [invoke] itself writes only into the members of the object and
    into the top 16 bytes of the reserved stack block: every other byte is,
    when the routine starts, what it was before [invoke], and, whenever
    [invoke] returns, what the routine left. *)
Theorem invoke_writes_only_the_object (rp : Z) (s s2 : machine) (x : Z) :
  0 <= rp < 2 ^ 64 ->
  native rp (at_entry rp s) = Some s2 ->
  rsp s2 = wrap64 (rsp (at_entry rp s) + 8) ->
  (forall f, ~ in_footprint (addr f) 8 x) ->
  ~ (this + sd L - 16 <= x < this + sd L) ->
  mem (at_entry rp s) x = mem s x /\
  forall s', invoke rp s = Some s' -> mem s' x = mem s2 x.
Proof.
  intros Hrp Hn Hret Hx Hst.
  pose proof (addr_range L this HL Hplaced F_rsp) as (H0 & H1 & H2 & H3).
  destruct (at_entry_spec L this native return_address HL Hplaced rp s)
    as (_ & Eret & _).
  rewrite Eret in Hret.
  split.
  - rewrite at_entry_unfold.
    destruct (before_call_spec L this native HL Hplaced rp s) as (Rb & _).
    destruct (push_facts return_address (before_call rp s) _ Rb ltac:(lia))
      as (_ & Mp & _).
    rewrite Mp, store64_frame
      by (rewrite in_footprint_interval by lia; lia).
    rewrite before_call_unfold. clear Rb Mp.
    destruct (staged_facts rp s) as (RD & _ & _ & MD).
    cbv zeta in RD, MD.
    generalize dependent (mov_mem_reg L (__rsp L) RAX
         (add_rsp (sd L)
            (mov_rsp this
               (mov_reg_rsp RAX
                  (with_mem (store64 (mem s) (this + __rip L) rp) s))))).
    intros sD RD MD.
    destruct (exchange_gprs_spec L this native HL Hplaced sD RD) as (RE & _).
    rewrite exchange_flags_frame by (try exact RE; try apply Hx; exact Hst).
    rewrite exchange_gprs_frame by (try exact RD; intros r; apply Hx).
    rewrite MD, !store64_frame by apply Hx. reflexivity.
  - intros s' Hs'.
    destruct (invoke_some_inv L this native return_address HL Hplaced rp s s'
                Hrp Hs') as (_ & s2' & Hn' & _ & ->).
    assert (s2' = s2) by congruence. subst s2'.
    rewrite after_call_unfold.
    destruct (mov_rsp_mem_facts L (__rsp L) (exchange_gprs (exchange_flags s2)))
      as (_ & M5 & _).
    rewrite M5.
    destruct (exchange_flags_spec L this HL Hplaced s2 Hret) as (RF' & _).
    rewrite exchange_gprs_frame by (try exact RF'; intros r; apply Hx).
    apply exchange_flags_frame; [exact Hret | apply Hx | exact Hst].
Qed.

(** X15. When the member of the register [r0] lies directly below
    [v_rflags], [invoke] does not return if bit 8 is set in the value the
    hardware register [r0] had before [invoke] (the old stack pointer for
    [rax]): the first [popfq] takes it as TF and the processor stops the
    process before the call, whatever the routine.  It does not return
    either if the routine comes back with bit 8 set in that member: the
    second [popfq] sets TF. *)
Theorem invoke_stops_on_single_step (r0 : gpr) (rp : Z) (s : machine) :
  gpr_slot L r0 + 8 = v_rflags L ->
  0 <= rp < 2 ^ 64 ->
  (Z.testbit (exchanged_in s r0) 8 = true -> invoke rp s = None) /\
  (forall s2,
     native rp (at_entry rp s) = Some s2 ->
     rsp s2 = wrap64 (rsp (at_entry rp s) + 8) ->
     Z.testbit (load64 (mem s2) (addr (F_gpr r0))) 8 = true ->
     invoke rp s = None).
Proof.
  intros Hbelow Hrp.
  rewrite (invoke_eq L this native return_address HL Hplaced rp s Hrp).
  rewrite (before_call_single_step r0 rp s Hbelow).
  split.
  - intros ->. reflexivity.
  - intros s2 Hn Hret Hbit.
    destruct (at_entry_spec L this native return_address HL Hplaced rp s)
      as (_ & Eret & _).
    rewrite Eret in Hret.
    rewrite Hn, (exchange_flags_single_step r0 s2 Hbelow Hret), Hbit.
    destruct (Z.testbit (exchanged_in s r0) 8); reflexivity.
Qed.

(** *** What the routine sees and what it leaves *)

Variable resolve_mapping : x86_reg -> x86_reg * Z * Z.
Hypothesis Hfull : forall r, resolve_mapping (reg64 r) = (reg64 r, 0, 8).

Local Abbreviation get := (get L resolve_mapping this).

(** X12. When the routine starts, every hardware register holds what
    [get] returned for it before [invoke], the stack pointer is 8 below the
    end of the reserved block with the return address on top of the stack,
    and the instruction-pointer member holds the routine's address. *)
Theorem routine_entry_state (rp : Z) (s : machine) :
  (forall r, get (reg64 r) (mem s) = Ok (regs (at_entry rp s) r, mem s)) /\
  rsp (at_entry rp s) = this + sd L - 8 /\
  load64 (mem (at_entry rp s)) (rsp (at_entry rp s)) = wrap64 return_address /\
  holds (mem (at_entry rp s)) F_rip rp.
Proof.
  pose proof (addr_range L this HL Hplaced F_rsp) as (H0 & H1 & H2 & H3).
  destruct (before_call_spec L this native HL Hplaced rp s)
    as (Rb & Gb & Hrip & _).
  destruct (at_entry_spec L this native return_address HL Hplaced rp s)
    as (Re & _ & Ge & Se).
  split; [| split; [| split]].
  - intros r. rewrite (get_reg64 L this HL resolve_mapping Hfull).
    rewrite Ge, Gb. reflexivity.
  - exact Re.
  - rewrite Re, at_entry_unfold.
    destruct (push_facts return_address (before_call rp s) _ Rb ltac:(lia))
      as (_ & Mp & _).
    rewrite Mp. apply load64_store64_same.
  - eapply same_field_holds; [apply Se | exact Hrip].
Qed.

(** X13. For a routine that returns with its [ret]: whenever [invoke]
    returns, [get] gives, for every register, the value the routine left in
    the hardware register, and the flags member holds the flags the routine
    left (as [pushfq] stores them); nothing is asked of what the routine did
    to the members.  [invoke] does return when, the member of [r0] lying
    directly below [v_rflags], bit 8 is clear both in the value the register
    [r0] had before [invoke] and in that member as the routine left it. *)
Theorem file_receives_routine_state (rp : Z) (s s2 : machine) :
  0 <= rp < 2 ^ 64 ->
  native rp (at_entry rp s) = Some s2 ->
  rsp s2 = wrap64 (rsp (at_entry rp s) + 8) ->
  (forall s',
     invoke rp s = Some s' ->
     (forall r, get (reg64 r) (mem s') = Ok (wrap64 (regs s2 r), mem s')) /\
     holds (mem s') F_rflags (pushfq_image (rflags s2))) /\
  (forall r0,
     gpr_slot L r0 + 8 = v_rflags L ->
     Z.testbit (exchanged_in s r0) 8 = false ->
     Z.testbit (load64 (mem s2) (addr (F_gpr r0))) 8 = false ->
     exists s', invoke rp s = Some s').
Proof.
  intros Hrp Hn Hret.
  destruct (at_entry_spec L this native return_address HL Hplaced rp s)
    as (_ & Eret & _).
  rewrite Eret in Hret.
  destruct (after_call_spec L this native HL Hplaced s2 Hret)
    as (_ & Hout & _ & Hfl).
  split.
  - intros s' Hs'.
    destruct (invoke_some_inv L this native return_address HL Hplaced rp s s'
                Hrp Hs') as (_ & s2' & Hn' & _ & ->).
    assert (s2' = s2) by congruence. subst s2'.
    split; [| exact Hfl].
    intros r. rewrite (get_reg64 L this HL resolve_mapping Hfull).
    rewrite (holds_load64 L this _ _ _ (Hout r)). reflexivity.
  - intros r0 Hbelow H3 H5. exists (after_call s2).
    apply (invoke_returns L this native return_address HL Hplaced rp s s2 Hrp).
    + rewrite (before_call_single_step r0 rp s Hbelow). exact H3.
    + exact Hn.
    + rewrite (exchange_flags_single_step r0 s2 Hbelow Hret). exact H5.
Qed.

End InvokeExtras.

(** ** The claims about [invoke] *)

Section InvokeClaims.

Import emulator.

Variable L : layout.
Variable this : Z.
Variable native : Z -> machine -> option machine.
Variable return_address : Z.

Hypothesis HL : layout_ok L.
Hypothesis Hplaced : placed L this.

Local Abbreviation exchange_flags := (exchange_flags L).
Local Abbreviation before_call := (before_call L this).
Local Abbreviation after_call := (after_call L).
Local Abbreviation at_entry := (at_entry L this return_address).
Local Abbreviation invoke := (invoke L this native return_address).
Local Abbreviation addr := (addr L this).
Local Abbreviation same_field := (same_field L this).
Local Abbreviation holds := (holds L this).

(** What the member of [r] holds when the routine starts. *)
Lemma entry_member r rp s :
  holds (mem (at_entry rp s)) (F_gpr r) (exchanged_in s r).
Proof.
  destruct (before_call_spec L this native HL Hplaced rp s)
    as (_ & _ & _ & _ & Hslots).
  destruct (at_entry_spec L this native return_address HL Hplaced rp s)
    as (_ & _ & _ & Hsame).
  eapply same_field_holds; [apply Hsame | apply Hslots].
Qed.

(** [invoke] returns when neither [popfq] sets TF. *)
Lemma invoke_returns_below r0 rp s s2 :
  0 <= rp < 2 ^ 64 ->
  native rp (at_entry rp s) = Some s2 ->
  rsp s2 = wrap64 (rsp (at_entry rp s) + 8) ->
  gpr_slot L r0 + 8 = v_rflags L ->
  Z.testbit (exchanged_in s r0) 8 = false ->
  Z.testbit (load64 (mem s2) (addr (F_gpr r0))) 8 = false ->
  invoke rp s = Some (after_call s2).
Proof.
  intros Hrp Hn Hret Hbelow H3 H5.
  destruct (at_entry_spec L this native return_address HL Hplaced rp s)
    as (_ & Eret & _).
  rewrite Eret in Hret.
  apply (invoke_returns L this native return_address HL Hplaced rp s s2 Hrp).
  - rewrite (before_call_single_step L this native HL Hplaced r0 rp s Hbelow).
    exact H3.
  - exact Hn.
  - rewrite (exchange_flags_single_step L this HL Hplaced r0 s2 Hbelow Hret).
    exact H5.
Qed.

(** C6, as the code has it.  Take a routine that returns with its [ret] and
    leaves the saved-stack-pointer member alone.  The old stack pointer is
    in [__rsp] when the routine starts; whenever [invoke] returns, [rsp] has
    been loaded from [__rsp] and is the stack pointer [invoke] was entered
    with.  [invoke] does return when, the member of [r0] lying directly
    below [v_rflags], bit 8 (TF) is clear in the value the register [r0]
    had before [invoke] and in that member as the routine left it. *)
Theorem invoke_restores_stack_pointer (rp : Z) (s s2 : machine) :
  0 <= rp < 2 ^ 64 ->
  0 <= rsp s < 2 ^ 64 ->
  native rp (at_entry rp s) = Some s2 ->
  rsp s2 = wrap64 (rsp (at_entry rp s) + 8) ->
  same_field F_rsp (mem (at_entry rp s)) (mem s2) ->
  holds (mem (at_entry rp s)) F_rsp (rsp s) /\
  (forall s',
     invoke rp s = Some s' ->
     rsp s' = load64 (mem s2) (addr F_rsp) /\ rsp s' = rsp s) /\
  (forall r0,
     gpr_slot L r0 + 8 = v_rflags L ->
     Z.testbit (exchanged_in s r0) 8 = false ->
     Z.testbit (load64 (mem s2) (addr (F_gpr r0))) 8 = false ->
     exists s', invoke rp s = Some s').
Proof.
  intros Hrp Hsp Hn Hret Hkeep.
  destruct (before_call_spec L this native HL Hplaced rp s)
    as (_ & _ & _ & Hsaved & _).
  destruct (at_entry_spec L this native return_address HL Hplaced rp s)
    as (_ & Eret & _ & Hsame).
  assert (Hentry : holds (mem (at_entry rp s)) F_rsp (rsp s))
    by (eapply same_field_holds; [apply Hsame | exact Hsaved]).
  split; [exact Hentry |]. split.
  - intros s' Hs'.
    destruct (invoke_some_inv L this native return_address HL Hplaced rp s s'
                Hrp Hs') as (_ & s2' & Hn' & _ & ->).
    assert (s2' = s2) by congruence. subst s2'.
    rewrite Eret in Hret.
    destruct (after_call_spec L this native HL Hplaced s2 Hret)
      as (_ & _ & Hrsp & _).
    split; [exact Hrsp |].
    rewrite Hrsp, (same_field_load64 L this _ _ _ Hkeep).
    rewrite (holds_load64 L this _ _ _ Hentry). apply wrap64_small. exact Hsp.
  - intros r0 Hbelow H3 H5. exists (after_call s2).
    apply (invoke_returns_below r0 rp s s2); assumption.
Qed.

(** C4, as the code has it.  Take a routine that returns with its [ret] and
    leaves the general-purpose members alone.  Whenever [invoke] returns,
    each hardware register other than [rax] has its value from before
    [invoke], and [rax], the scratch register through which the stack
    pointer is saved, has the stack pointer from before [invoke].  [invoke]
    does return when, the member of [r0] lying directly below [v_rflags],
    bit 8 (TF) is clear in the value the register [r0] had before
    [invoke]. *)
Theorem invoke_restores_registers_but_rax (rp : Z) (s s2 : machine) :
  0 <= rp < 2 ^ 64 ->
  (forall r, 0 <= regs s r < 2 ^ 64) ->
  0 <= rsp s < 2 ^ 64 ->
  native rp (at_entry rp s) = Some s2 ->
  rsp s2 = wrap64 (rsp (at_entry rp s) + 8) ->
  (forall r, same_field (F_gpr r) (mem (at_entry rp s)) (mem s2)) ->
  (forall s',
     invoke rp s = Some s' ->
     (forall r, r <> RAX -> regs s' r = regs s r) /\
     regs s' RAX = rsp s) /\
  (forall r0,
     gpr_slot L r0 + 8 = v_rflags L ->
     Z.testbit (exchanged_in s r0) 8 = false ->
     exists s', invoke rp s = Some s').
Proof.
  intros Hrp Hregs Hsp Hn Hret Hkeep.
  assert (Hmem : forall r, load64 (mem s2) (addr (F_gpr r))
                           = wrap64 (exchanged_in s r)).
  { intros r. rewrite (same_field_load64 L this _ _ _ (Hkeep r)).
    apply holds_load64, entry_member. }
  split.
  - intros s' Hs'.
    destruct (invoke_some_inv L this native return_address HL Hplaced rp s s'
                Hrp Hs') as (_ & s2' & Hn' & _ & ->).
    assert (s2' = s2) by congruence. subst s2'.
    destruct (at_entry_spec L this native return_address HL Hplaced rp s)
      as (_ & Eret & _).
    rewrite Eret in Hret.
    destruct (after_call_spec L this native HL Hplaced s2 Hret) as (Hback & _).
    split.
    + intros r Hr. rewrite Hback, Hmem. unfold exchanged_in.
      rewrite (gpr_eqb_neq r RAX Hr). apply wrap64_small, Hregs.
    + rewrite Hback, Hmem. unfold exchanged_in. cbn [gpr_eqb].
      apply wrap64_small, Hsp.
  - intros r0 Hbelow H3. exists (after_call s2).
    apply (invoke_returns_below r0 rp s s2); try assumption.
    rewrite Hmem, testbit8_wrap64. exact H3.
Qed.

(** C5. Let the routine at [rp] be a bare [ret].  Whenever [invoke]
    returns, every byte of each of the fifteen general-purpose members is
    what it was before the call (the member of the return-value register
    included).  [invoke] does return when, the member of [r0] lying
    directly below [v_rflags], bit 8 (TF) is clear in the value the
    register [r0] had before [invoke]. *)
Theorem return_only_routine_keeps_slots (rp : Z) (s : machine) :
  0 <= rp < 2 ^ 64 ->
  (forall s1, native rp s1 = Some (ret_only s1)) ->
  (forall s',
     invoke rp s = Some s' ->
     forall r, same_field (F_gpr r) (mem s) (mem s')) /\
  (forall r0,
     gpr_slot L r0 + 8 = v_rflags L ->
     Z.testbit (exchanged_in s r0) 8 = false ->
     exists s', invoke rp s = Some s').
Proof.
  intros Hrp Hn.
  destruct (before_call_spec L this native HL Hplaced rp s) as (_ & Hin & _).
  destruct (at_entry_spec L this native return_address HL Hplaced rp s)
    as (_ & Eret & Hregs & _).
  pose proof (fun r => entry_member r rp s) as Hmember.
  destruct (ret_only_facts (at_entry rp s)) as (R2 & G2 & M2).
  pose proof (Hn (at_entry rp s)) as En.
  generalize dependent (ret_only (at_entry rp s)). intros s2 R2 G2 M2 En.
  split.
  - intros s' Hs'.
    destruct (invoke_some_inv L this native return_address HL Hplaced rp s s'
                Hrp Hs') as (_ & s2' & Hn' & _ & ->).
    assert (s2' = s2) by congruence. subst s2'.
    rewrite Eret in R2.
    destruct (after_call_spec L this native HL Hplaced s2 R2) as (_ & Hout & _).
    intros r x Hx. pose proof (Hout r) as H. unfold emulator.holds in H.
    apply (load_bytes_eq_pointwise 8 _ _ (addr (F_gpr r))); [| exact Hx].
    rewrite H, G2, Hregs, Hin. unfold load64.
    rewrite <- (length_load_bytes 8 (mem s) (addr (F_gpr r))) at 1.
    apply split_le_combine.
  - intros r0 Hbelow H3. exists (after_call s2).
    apply (invoke_returns_below r0 rp s s2); try assumption.
    rewrite M2, (holds_load64 L this _ _ _ (Hmember r0)), testbit8_wrap64.
    exact H3.
Qed.

(** *** The end-to-end scenario *)

Variable resolve_mapping : x86_reg -> x86_reg * Z * Z.

Local Abbreviation set := (set L resolve_mapping this).
Local Abbreviation get := (get L resolve_mapping this).

(** The resolver maps the name of a full register to itself. *)
Hypothesis Hfull : forall r, resolve_mapping (reg64 r) = (reg64 r, 0, 8).


End InvokeClaims.

(** ** The concrete instance *)

Lemma spec_layout_ok n :
  24 <= n -> n + 144 < 2 ^ 31 -> emulator.layout_ok (emulator.spec_layout n).
Proof.
  intros H1 H2. unfold emulator.layout_ok. split; [exact H1 |]. split.
  - intros [| | r |]; try destruct r; cbn; lia.
  - intros [| | r |] [| | r' |] Hne; try destruct r; try destruct r';
      cbn; try lia; exfalso; apply Hne; reflexivity.
Qed.

Lemma example_layout_ok : emulator.layout_ok emulator.example.L.
Proof. apply spec_layout_ok; lia. Qed.

Lemma example_placed : emulator.placed emulator.example.L emulator.example.this.
Proof. unfold emulator.placed, emulator.example.this. lia. Qed.

Lemma amd64_mapping_full r :
  emulator.amd64_mapping (emulator.reg64 r) = (emulator.reg64 r, 0, 8).
Proof. destruct r; reflexivity. Qed.

Section Instances.

Import emulator emulator.example.

(** *** Witnesses *)

Lemma set_then_get_witness :
  supported L amd64_mapping X86_REG_AX = true /\
  exists m',
    (set L amd64_mapping this X86_REG_AX 0x12345678 ;;;
     get L amd64_mapping this X86_REG_AX) zero_memory
    = Ok (0x12345678 mod 2 ^ (8 * width_of amd64_mapping X86_REG_AX), m').
Proof.
  split; [reflexivity |].
  apply (set_then_get L amd64_mapping this X86_REG_AX 0x12345678 zero_memory).
  reflexivity.
Defined.

Lemma unsupported_base_is_fatal_witness :
  (forall r : gpr, base_reg_of amd64_mapping X86_REG_ESP <> reg64 r) /\
  resolve L amd64_mapping X86_REG_ESP = Fatal /\
  (forall p, resolve L amd64_mapping X86_REG_ESP <> Ok p) /\
  (forall v m, set L amd64_mapping this X86_REG_ESP v m = Fatal) /\
  (forall m, get L amd64_mapping this X86_REG_ESP m = Fatal).
Proof.
  assert (H : forall r : gpr, base_reg_of amd64_mapping X86_REG_ESP <> reg64 r)
    by (intros r; destruct r; discriminate).
  split; [exact H |].
  apply (unsupported_base_is_fatal L amd64_mapping this X86_REG_ESP).
  exact H.
Defined.

Lemma resolve_offset_and_width_witness :
  layout_ok L /\
  resolve L amd64_mapping X86_REG_CH = Ok (v_rcx L + 1, 1).
Proof.
  split; [exact example_layout_ok |].
  apply (resolve_offset_and_width L amd64_mapping X86_REG_CH RCX
           example_layout_ok).
  - reflexivity.
  - cbn. lia.
  - cbn. lia.
  - cbn. lia.
Defined.

Lemma get_changes_nothing_witness :
  supported L amd64_mapping X86_REG_R9D = true /\
  exists v, get L amd64_mapping this X86_REG_R9D zero_memory
            = Ok (v, zero_memory).
Proof.
  split; [reflexivity |].
  apply (get_changes_nothing L amd64_mapping this X86_REG_R9D zero_memory).
  reflexivity.
Defined.

Lemma set_writes_only_its_bytes_witness :
  layout_ok L /\ placed L this /\
  exists m' r,
    (set L amd64_mapping this X86_REG_RAX 0x1122334455667788 ;;;
     set L amd64_mapping this X86_REG_AH 0xFFEE ;;;
     get L amd64_mapping this X86_REG_RAX) zero_memory = Ok (r, m') /\
    0 <= r < 2 ^ (8 * width_of amd64_mapping X86_REG_RAX) /\
    forall i, 0 <= i < width_of amd64_mapping X86_REG_RAX ->
      byte_at r i =
      if (offset_in_base amd64_mapping X86_REG_AH
            <=? offset_in_base amd64_mapping X86_REG_RAX + i)
         && (offset_in_base amd64_mapping X86_REG_RAX + i
               <? offset_in_base amd64_mapping X86_REG_AH
                  + width_of amd64_mapping X86_REG_AH)
      then byte_at 0xFFEE (offset_in_base amd64_mapping X86_REG_RAX + i
                           - offset_in_base amd64_mapping X86_REG_AH)
      else byte_at 0x1122334455667788 i.
Proof.
  split; [exact example_layout_ok |]. split; [exact example_placed |].
  apply (proj2 (set_writes_only_its_bytes L amd64_mapping this
                  example_layout_ok example_placed)
           X86_REG_AH X86_REG_RAX 0x1122334455667788 0xFFEE zero_memory);
    reflexivity.
Defined.

(** *** Concrete runs *)

Example alias_run_value :
  match (set L amd64_mapping this X86_REG_RAX 0x1122334455667788 ;;;
         set L amd64_mapping this X86_REG_AH 0xFFEE ;;;
         r <- get L amd64_mapping this X86_REG_RAX ;;
         e <- get L amd64_mapping this X86_REG_EAX ;;
         ret (r, e)) zero_memory with
  | Ok (v, _) => v = (0x112233445566EE88, 0x5566EE88)
  | _ => False
  end.
Proof. vm_compute. reflexivity. Qed.

Example add_run :
  match (set L amd64_mapping this X86_REG_RCX 3 ;;;
         set L amd64_mapping this X86_REG_RDX 4) zero_memory with
  | Ok (_, m) =>
      match invoke L this add_native return_address routine
              (with_mem m start) with
      | Some s' =>
          match get L amd64_mapping this X86_REG_RAX (mem s') with
          | Ok (v, _) => v = 7
          | _ => False
          end
      | None => False
      end
  | _ => False
  end.
Proof. vm_compute. reflexivity. Qed.

(** *** [invoke]: witnesses *)

Lemma start_no_single_step :
  gpr_slot L R15 + 8 = v_rflags L /\
  Z.testbit (exchanged_in start R15) 8 = false.
Proof. split; reflexivity. Qed.

Lemma ret_only_rsp s : rsp (ret_only s) = wrap64 (rsp s + 8).
Proof. reflexivity. Qed.

Lemma ret_only_mem s : mem (ret_only s) = mem s.
Proof. reflexivity. Qed.

Lemma start_member_r15 :
  Z.testbit
    (load64 (mem (ret_only (at_entry L this return_address routine start)))
       (addr L this (F_gpr R15))) 8 = false.
Proof. vm_compute. reflexivity. Qed.

Lemma invoke_restores_stack_pointer_witness :
  (exists s',
     invoke L this ret_native return_address routine start = Some s') /\
  holds L this
    (mem (at_entry L this return_address routine start)) F_rsp (rsp start) /\
  (forall s',
     invoke L this ret_native return_address routine start = Some s' ->
     rsp s' =
       load64 (mem (ret_only (at_entry L this return_address routine start)))
              (addr L this F_rsp) /\
     rsp s' = rsp start).
Proof.
  destruct (invoke_restores_stack_pointer L this ret_native return_address
              example_layout_ok example_placed routine start
              (ret_only (at_entry L this return_address routine start)))
    as (A & B & C).
  - unfold routine. lia.
  - cbn. lia.
  - reflexivity.
  - apply ret_only_rsp.
  - intros x _. rewrite ret_only_mem. reflexivity.
  - split; [| split; [exact A | exact B]].
    apply (C R15);
      [ exact (proj1 start_no_single_step)
      | exact (proj2 start_no_single_step)
      | exact start_member_r15 ].
Defined.

Lemma invoke_restores_registers_but_rax_witness :
  (exists s',
     invoke L this ret_native return_address routine start = Some s') /\
  (forall s',
     invoke L this ret_native return_address routine start = Some s' ->
     (forall r, r <> RAX -> regs s' r = regs start r) /\
     regs s' RAX = rsp start).
Proof.
  destruct (invoke_restores_registers_but_rax L this ret_native return_address
              example_layout_ok example_placed routine start
              (ret_only (at_entry L this return_address routine start)))
    as (A & B).
  - unfold routine. lia.
  - intros r; destruct r; cbn; lia.
  - cbn. lia.
  - reflexivity.
  - apply ret_only_rsp.
  - intros r x _. rewrite ret_only_mem. reflexivity.
  - split; [| exact A].
    apply (B R15);
      [ exact (proj1 start_no_single_step)
      | exact (proj2 start_no_single_step) ].
Defined.

Lemma return_only_routine_keeps_slots_witness :
  (exists s',
     invoke L this ret_native return_address routine start = Some s') /\
  (forall s',
     invoke L this ret_native return_address routine start = Some s' ->
     forall r, same_field L this (F_gpr r) (mem start) (mem s')).
Proof.
  destruct (return_only_routine_keeps_slots L this ret_native return_address
              example_layout_ok example_placed routine start) as (A & B).
  - unfold routine. lia.
  - intros s1. reflexivity.
  - split; [| exact A].
    apply (B R15);
      [ exact (proj1 start_no_single_step)
      | exact (proj2 start_no_single_step) ].
Defined.



(** *** [invoke]: what it does to [rax] and to the flags *)

Lemma start_run_returns :
  invoke L this ret_native return_address routine start =
  Some (after_call L (ret_only (at_entry L this return_address routine start))).
Proof.
  apply (invoke_returns L this ret_native return_address
           example_layout_ok example_placed).
  - unfold routine. lia.
  - vm_compute. reflexivity.
  - reflexivity.
  - vm_compute. reflexivity.
Qed.

(** On the concrete run, where the routine is a bare [ret], [invoke]
    returns with [rax] holding the old stack pointer instead of its old
    value 1, and with the flags 0x207 instead of 0x246. *)
Lemma invoke_changes_rax_and_flags :
  layout_ok L /\ placed L this /\
  exists s',
    invoke L this ret_native return_address routine start = Some s' /\
    regs s' RAX = rsp start /\ regs s' RAX <> regs start RAX /\
    rflags s' = 0x207 /\ rflags s' <> rflags start.
Proof.
  split; [exact example_layout_ok |]. split; [exact example_placed |].
  eexists. split; [exact start_run_returns |].
  repeat split; vm_compute; try reflexivity; discriminate.
Qed.

(** *** [invoke]: a routine that writes above its return address *)

Lemma store_above_rsp s :
  rsp (store_above_routine s) = wrap64 (rsp s + 8).
Proof. reflexivity. Qed.

Lemma start_rcx_run_returns :
  invoke L this store_above_native return_address routine start_rcx =
  Some (after_call L
          (store_above_routine
             (at_entry L this return_address routine start_rcx))).
Proof.
  apply (invoke_returns L this store_above_native return_address
           example_layout_ok example_placed).
  - unfold routine. lia.
  - vm_compute. reflexivity.
  - reflexivity.
  - vm_compute. reflexivity.
Qed.

(** The routine [mov [rsp + 8], rcx; ret] returns with the stack pointer
    balanced; the word above its return address is the saved-stack-pointer
    member.  With [0x1234] set for [rcx], [invoke] returns with
    [rsp = 0x1234], not with the stack pointer it was entered with. *)
Lemma invoke_returns_with_other_stack_pointer :
  layout_ok L /\ placed L this /\
  rsp (store_above_routine (at_entry L this return_address routine start_rcx))
    = wrap64 (rsp (at_entry L this return_address routine start_rcx) + 8) /\
  exists s',
    invoke L this store_above_native return_address routine start_rcx
      = Some s' /\
    rsp start_rcx = 0x7FFF0000 /\ rsp s' = 0x1234.
Proof.
  split; [exact example_layout_ok |]. split; [exact example_placed |].
  split; [apply store_above_rsp |].
  eexists. split; [exact start_rcx_run_returns |].
  split; vm_compute; reflexivity.
Qed.

End Instances.

(** ** Instances of the further properties *)

Section ExtraInstances.

Import emulator emulator.example.

Lemma default_seed_in_range : hashable.in_range hashable.default_seed.
Proof. unfold hashable.in_range. cbn. lia. Qed.

Lemma of_seed64_5_in_range : hashable.in_range (hashable.of_seed64 5).
Proof. unfold hashable.in_range. cbn. lia. Qed.

Lemma append_is_xor_mul_128_witness :
  hashable.in_range (hashable.append hashable.default_seed [0x61; 0x62]) /\
  hashable.as_u128 (hashable.append hashable.default_seed [0x61; 0x62]) =
  fold_left hashable.xor_mul_128 [0x61; 0x62]
    (hashable.as_u128 hashable.default_seed).
Proof.
  apply (append_is_xor_mul_128 [0x61; 0x62] hashable.default_seed).
  - exact default_seed_in_range.
  - repeat constructor; lia.
Defined.

Lemma step_injective_in_state_witness : hash_a = hash_a.
Proof.
  apply (step_injective_in_state hash_a hash_a 0x61).
  - exact default_seed_in_range.
  - exact default_seed_in_range.
  - lia.
  - reflexivity.
Defined.

Lemma step_injective_in_byte_witness : 0x61 = 0x61.
Proof.
  apply (step_injective_in_byte hash_a 0x61 0x61).
  - exact default_seed_in_range.
  - lia.
  - lia.
  - reflexivity.
Defined.

Lemma comparisons_are_those_of_u128_witness :
  (hashable.lt hash_a hash_b = true <->
   hashable.as_u128 hash_a < hashable.as_u128 hash_b) /\
  (hashable.eqb hash_a hash_b = true <-> hash_a = hash_b) /\
  (hashable.neb hash_a hash_b = true <-> hash_a <> hash_b).
Proof.
  apply (comparisons_are_those_of_u128 hash_a hash_b).
  - exact default_seed_in_range.
  - exact of_seed64_5_in_range.
Defined.

Example hash_order_run :
  hashable.lt hash_a hash_b = true /\ hashable.lt hash_b hash_a = false /\
  hashable.neb hash_a hash_b = true.
Proof. vm_compute. repeat split. Qed.

Lemma set_twice_is_last_set_witness :
  exists m1 m2,
    (set L amd64_mapping this X86_REG_BX 0x1111 ;;;
     set L amd64_mapping this X86_REG_BX 0x2222) zero_memory = Ok (tt, m1) /\
    set L amd64_mapping this X86_REG_BX 0x2222 zero_memory = Ok (tt, m2) /\
    forall x, m1 x = m2 x.
Proof.
  apply (set_twice_is_last_set L amd64_mapping this X86_REG_BX 0x1111 0x2222
           zero_memory).
  reflexivity.
Defined.

Lemma set_keeps_other_bases_witness :
  exists m' w,
    set L amd64_mapping this X86_REG_EAX 0xAABBCCDD zero_memory = Ok (tt, m') /\
    get L amd64_mapping this X86_REG_RBX zero_memory = Ok (w, zero_memory) /\
    get L amd64_mapping this X86_REG_RBX m' = Ok (w, m').
Proof.
  apply (set_keeps_other_bases L amd64_mapping this X86_REG_EAX X86_REG_RBX
           0xAABBCCDD zero_memory example_layout_ok example_placed).
  - reflexivity.
  - reflexivity.
  - discriminate.
Defined.

Lemma get_inner_alias_after_set_witness :
  exists m',
    (set L amd64_mapping this X86_REG_RCX 0x1122334455667788 ;;;
     get L amd64_mapping this X86_REG_CH) zero_memory =
    Ok (Z.shiftr 0x1122334455667788
          (8 * (offset_in_base amd64_mapping X86_REG_CH
                - offset_in_base amd64_mapping X86_REG_RCX))
          mod 2 ^ (8 * width_of amd64_mapping X86_REG_CH), m').
Proof.
  apply (get_inner_alias_after_set L amd64_mapping this X86_REG_CH X86_REG_RCX
           0x1122334455667788 zero_memory example_layout_ok example_placed).
  - reflexivity.
  - reflexivity.
  - reflexivity.
  - cbn. lia.
  - cbn. lia.
Defined.

Example inner_alias_run :
  match (set L amd64_mapping this X86_REG_RCX 0x1122334455667788 ;;;
         get L amd64_mapping this X86_REG_CH) zero_memory with
  | Ok (v, _) => v = 0x77
  | _ => False
  end.
Proof. vm_compute. reflexivity. Qed.

Lemma set_stays_in_its_member_witness :
  exists r m',
    base_reg_of amd64_mapping X86_REG_R10W = reg64 r /\
    set L amd64_mapping this X86_REG_R10W 0xBEEF zero_memory = Ok (tt, m') /\
    (forall x, ~ (addr L this (F_gpr r) <= x < addr L this (F_gpr r) + 8) ->
               m' x = zero_memory x) /\
    (forall f, f <> F_gpr r -> same_field L this f zero_memory m').
Proof.
  apply (set_stays_in_its_member L amd64_mapping this X86_REG_R10W 0xBEEF
           zero_memory example_layout_ok example_placed).
  reflexivity.
Defined.

Lemma get_is_zero_extended_witness :
  exists v,
    get L amd64_mapping this X86_REG_SIL zero_memory = Ok (v, zero_memory) /\
    0 <= v < 2 ^ (8 * width_of amd64_mapping X86_REG_SIL).
Proof.
  apply (get_is_zero_extended L amd64_mapping this X86_REG_SIL zero_memory).
  reflexivity.
Defined.

Lemma start_regs_in_range r : 0 <= regs start r < 2 ^ 64.
Proof. destruct r; cbn; lia. Qed.

Lemma exchange_gprs_twice_witness :
  (forall r, regs (exchange_gprs L (exchange_gprs L switched)) r
             = regs switched r) /\
  rsp (exchange_gprs L (exchange_gprs L switched)) = rsp switched /\
  rflags (exchange_gprs L (exchange_gprs L switched)) = rflags switched /\
  (forall x, mem (exchange_gprs L (exchange_gprs L switched)) x
             = mem switched x).
Proof.
  apply (exchange_gprs_twice L this ret_native example_layout_ok example_placed
           switched).
  - reflexivity.
  - exact start_regs_in_range.
Defined.

Lemma entry_flags_come_from_member_below_witness :
  rflags (at_entry L this return_address routine start) =
  flags_after_popfq (flags_after_add (rflags start) this (sd L))
    (wrap64 (if gpr_eqb R15 RAX then rsp start else regs start R15)).
Proof.
  apply (entry_flags_come_from_member_below L this ret_native return_address
           example_layout_ok example_placed R15 routine start).
  reflexivity.
Defined.

(** On the concrete run the flags member holds 0 and [r15] holds 15: the
    routine starts with CF and PF set, taken from [r15]. *)
Example entry_flags_run :
  load64 (mem start) (addr L this F_rflags) = 0 /\
  rflags (at_entry L this return_address routine start) = 0x207.
Proof. vm_compute. split; reflexivity. Qed.

Lemma outside_the_object f : ~ in_footprint (addr L this f) 8 0.
Proof.
  rewrite (in_field L this example_layout_ok example_placed).
  pose proof (addr_range L this example_layout_ok example_placed f) as A.
  unfold this in *. lia.
Qed.

Lemma invoke_writes_only_the_object_witness :
  (exists s',
     invoke L this ret_native return_address routine start = Some s') /\
  mem (at_entry L this return_address routine start) 0 = mem start 0 /\
  forall s',
    invoke L this ret_native return_address routine start = Some s' ->
    mem s' 0 =
    mem (ret_only (at_entry L this return_address routine start)) 0.
Proof.
  split; [eexists; exact start_run_returns |].
  apply (invoke_writes_only_the_object L this ret_native return_address
           example_layout_ok example_placed routine start
           (ret_only (at_entry L this return_address routine start)) 0).
  - unfold routine. lia.
  - reflexivity.
  - apply ret_only_rsp.
  - exact outside_the_object.
  - unfold this. rewrite (sd_eq L example_layout_ok). cbn. lia.
Defined.

Lemma invoke_stops_on_single_step_witness :
  Z.testbit (exchanged_in start_tf R15) 8 = true /\
  invoke L this ret_native return_address routine start_tf = None.
Proof.
  split; [reflexivity |].
  apply (proj1 (invoke_stops_on_single_step L this ret_native return_address
                  example_layout_ok example_placed R15 routine start_tf
                  eq_refl ltac:(unfold routine; lia))).
  reflexivity.
Defined.

Lemma routine_entry_state_witness :
  (forall r, get L amd64_mapping this (reg64 r) (mem start)
             = Ok (regs (at_entry L this return_address routine start) r,
                   mem start)) /\
  rsp (at_entry L this return_address routine start) = this + sd L - 8 /\
  load64 (mem (at_entry L this return_address routine start))
         (rsp (at_entry L this return_address routine start))
    = wrap64 return_address /\
  holds L this (mem (at_entry L this return_address routine start)) F_rip routine.
Proof.
  exact (routine_entry_state L this ret_native return_address
           example_layout_ok example_placed amd64_mapping amd64_mapping_full
           routine start).
Defined.

Lemma add_routine_rsp a b d s :
  rsp (add_routine a b d s) = wrap64 (rsp s + 8).
Proof. reflexivity. Qed.

Lemma add_run_returns :
  invoke L this add_native return_address routine start =
  Some (after_call L
          (add_routine RCX RDX RAX
             (at_entry L this return_address routine start))).
Proof.
  apply (invoke_returns L this add_native return_address
           example_layout_ok example_placed).
  - unfold routine. lia.
  - vm_compute. reflexivity.
  - reflexivity.
  - vm_compute. reflexivity.
Qed.

Lemma file_receives_routine_state_witness :
  (exists s',
     invoke L this add_native return_address routine start = Some s') /\
  (forall s',
     invoke L this add_native return_address routine start = Some s' ->
     (forall r, get L amd64_mapping this (reg64 r) (mem s')
                = Ok (wrap64 (regs (add_routine RCX RDX RAX
                                      (at_entry L this return_address routine
                                         start)) r), mem s')) /\
     holds L this (mem s') F_rflags
       (pushfq_image (rflags (add_routine RCX RDX RAX
                                (at_entry L this return_address routine
                                   start))))).
Proof.
  split; [eexists; exact add_run_returns |].
  apply (proj1 (file_receives_routine_state L this add_native return_address
           example_layout_ok example_placed amd64_mapping amd64_mapping_full
           routine start
           (add_routine RCX RDX RAX
              (at_entry L this return_address routine start))
           ltac:(unfold routine; lia) eq_refl (add_routine_rsp _ _ _ _))).
Defined.

End ExtraInstances.
